(** * Verification of [src/objects-tasks.js]

    A shallow embedding of the exported functions of the module and of the
    [cssSelectorBuilder] object, together with the properties the
    specification states about them.

    Conventions of the embedding.
    - Numbers that the code adds or multiplies are the type [Numbers.number]:
      the integers that a double holds, the two infinities and [NaN], with
      the rounding of every sum and product written out.  Numbers that the
      code only counts or compares are integers ([Z]).
    - An object is one that an object literal makes: the finite map of its
      own enumerable data properties, with [Object.prototype] as its
      prototype.  Where the code reads a property by name, the read goes on
      to the members of [Object.prototype].
    - A string is the sequence of its code units, each of them below 256
      ([ascii]), as in the documented examples.
    - Objects and arrays that the code mutates or aliases live in an explicit
      store and are passed by location. *)

From stdpp Require Import gmap strings list sorting.
From Stdlib Require Import ZArith Lia Ascii.

Local Open Scope string_scope.
Local Open Scope list_scope.

(** * The selector builder *)

Module cssSelectorBuilder.

(** The [type] tag of a fragment: the source uses the strings ['element'],
    ['id'], ['class'], ['attr'], ['pseudoclass'], ['pseudoelement'] and
    ['combinator']. *)
Inductive stype :=
| TElement | TId | TClass | TAttr | TPseudoClass | TPseudoElement | TCombinator.

#[global] Instance stype_eq_dec : EqDecision stype.
Proof. solve_decision. Defined.

(** [{ selector: ..., type: ... }] *)
Record fragment := Fragment { selector : string; type : stype }.

#[global] Instance fragment_eq_dec : EqDecision fragment.
Proof. solve_decision. Defined.

(** The two errors the builder throws, and the [TypeError] of the runtime
    for a property read through a missing reference. *)
Inductive error := OrderError | DuplicateError | TypeError.

Definition message (e : error) : string :=
  match e with
  | OrderError =>
      "Selector parts should be arranged in the following order: element, id, class, attribute, pseudo-class, pseudo-element"
  | DuplicateError =>
      "Element, id and pseudo-element should not occur more then one time inside the selector"
  | TypeError => "TypeError"
  end.

(** The store: arrays of fragments, and builder objects.  A builder object
    is determined by its [selectors] property, a reference to an array
    ([None] for the object literal [{}] before [Object.assign]); [order] and
    the methods are the same for all of them. *)
Record heap := Heap {
  arrays : gmap nat (list fragment);
  objects : gmap nat (option nat)
}.

Inductive result (A : Type) :=
| Ok (a : A)
| Throw (e : error).
Arguments Ok {A} a.
Arguments Throw {A} e.

(** A computation reads and writes the store and returns or throws; the
    store it leaves is kept in both cases. *)
Definition M (A : Type) : Type := heap → result A * heap.

Definition ret {A} (a : A) : M A := λ h, (Ok a, h).
Definition throw {A} (e : error) : M A := λ h, (Throw e, h).
Definition bind {A B} (k : A → M B) (m : M A) : M B :=
  λ h, match m h with
       | (Ok a, h') => k a h'
       | (Throw e, h') => (Throw e, h')
       end.

(** The notations [x ← m; k] and [m;; k] are those of stdpp's [MBind]. *)
#[global] Instance M_ret : MRet M := @ret.
#[global] Instance M_bind : MBind M := @bind.

(** ** Store primitives *)

(** [{}] *)
Definition new_object : M nat := λ h,
  let o := fresh (dom (objects h)) in
  (Ok o, Heap (arrays h) (<[o := None]> (objects h))).

(** [[]] and array literals *)
Definition new_array (l : list fragment) : M nat := λ h,
  let a := fresh (dom (arrays h)) in
  (Ok a, Heap (<[a := l]> (arrays h)) (objects h)).

(** [o.selectors] *)
Definition get_selectors (o : nat) : M nat := λ h,
  match objects h !! o with
  | Some (Some a) => (Ok a, h)
  | _ => (Throw TypeError, h)
  end.

(** [o.selectors = a] *)
Definition set_selectors (o a : nat) : M unit := λ h,
  match objects h !! o with
  | Some _ => (Ok tt, Heap (arrays h) (<[o := Some a]> (objects h)))
  | None => (Throw TypeError, h)
  end.

(** the elements of the array at [a] *)
Definition read_array (a : nat) : M (list fragment) := λ h,
  match arrays h !! a with
  | Some l => (Ok l, h)
  | None => (Throw TypeError, h)
  end.

(** [a.push(...xs)] *)
Definition push (a : nat) (xs : list fragment) : M unit := λ h,
  match arrays h !! a with
  | Some l => (Ok tt, Heap (<[a := l ++ xs]> (arrays h)) (objects h))
  | None => (Throw TypeError, h)
  end.

(** [Object.assign(target, source)]: the own properties of [source] are
    copied by reference, so both objects then share one [selectors] array. *)
Definition assign (target source : nat) : M unit := λ h,
  match objects h !! target, objects h !! source with
  | Some _, Some f => (Ok tt, Heap (arrays h) (<[target := f]> (objects h)))
  | _, _ => (Throw TypeError, h)
  end.

(** ** The object *)

Definition order : list stype :=
  [TElement; TId; TClass; TAttr; TPseudoClass; TPseudoElement].

(** [arr.includes(e)] *)
Definition includes (arr : list stype) (e : stype) : bool :=
  existsb (λ x, bool_decide (x = e)) arr.

Definition checkOrder (this : nat) (n : nat) : M unit :=
  a ← get_selectors this;
  l ← read_array a;
  if negb (length l =? 0)%nat then
    let lastElements := map type l in
    if existsb (λ e, includes lastElements e) (drop n order)
    then throw OrderError
    else ret tt
  else ret tt.

Definition checkType (this : nat) (ty : stype) : M unit :=
  a ← get_selectors this;
  l ← read_array a;
  if (1 <=? length (List.filter (λ e, bool_decide (type e = ty)) l))%nat
  then throw DuplicateError
  else ret tt.

(** In every method below, [Object.assign(copyThis, this)] makes the copy
    share the array of [this]; the fragment is pushed on that shared array;
    [this.selectors = []] then gives [this] a new empty array; the copy is
    returned. *)
Definition element (this : nat) (value : string) : M nat :=
  checkType this TElement;;
  checkOrder this 1;;
  copyThis ← new_object;
  assign copyThis this;;
  a ← get_selectors copyThis;
  push a [Fragment value TElement];;
  e ← new_array [];
  set_selectors this e;;
  ret copyThis.

Definition id (this : nat) (value : string) : M nat :=
  copyThis ← new_object;
  checkType this TId;;
  checkOrder this 2;;
  assign copyThis this;;
  a ← get_selectors copyThis;
  push a [Fragment ("#" +:+ value) TId];;
  e ← new_array [];
  set_selectors this e;;
  ret copyThis.

Definition class (this : nat) (value : string) : M nat :=
  checkOrder this 3;;
  copyThis ← new_object;
  assign copyThis this;;
  a ← get_selectors copyThis;
  push a [Fragment ("." +:+ value) TClass];;
  e ← new_array [];
  set_selectors this e;;
  ret copyThis.

Definition attr (this : nat) (value : string) : M nat :=
  checkOrder this 4;;
  copyThis ← new_object;
  assign copyThis this;;
  a ← get_selectors copyThis;
  push a [Fragment ("[" +:+ value +:+ "]") TAttr];;
  e ← new_array [];
  set_selectors this e;;
  ret copyThis.

Definition pseudoClass (this : nat) (value : string) : M nat :=
  checkOrder this 5;;
  copyThis ← new_object;
  assign copyThis this;;
  a ← get_selectors copyThis;
  push a [Fragment (":" +:+ value) TPseudoClass];;
  e ← new_array [];
  set_selectors this e;;
  ret copyThis.

Definition pseudoElement (this : nat) (value : string) : M nat :=
  checkType this TPseudoElement;;
  copyThis ← new_object;
  assign copyThis this;;
  a ← get_selectors copyThis;
  push a [Fragment ("::" +:+ value) TPseudoElement];;
  e ← new_array [];
  set_selectors this e;;
  ret copyThis.

(** The spread arguments are read before [push] runs. *)
Definition combine (this : nat) (selector1 : nat) (combinator : string)
    (selector2 : nat) : M nat :=
  copyThis ← new_object;
  assign copyThis this;;
  a ← get_selectors copyThis;
  a1 ← get_selectors selector1;
  l1 ← read_array a1;
  a2 ← get_selectors selector2;
  l2 ← read_array a2;
  push a (l1 ++ [Fragment (" " +:+ combinator +:+ " ") TCombinator] ++ l2);;
  e ← new_array [];
  set_selectors this e;;
  ret copyThis.

(** [items.map((item) => item.selector).join('')] *)
Definition join (l : list fragment) : string :=
  String.concat "" (map selector l).

Definition stringify (this : nat) : M string :=
  a ← get_selectors this;
  l ← read_array a;
  let result := join l in
  e ← new_array [];
  set_selectors this e;;
  ret result.

(** The store after the module is loaded: the object [cssSelectorBuilder]
    at location [0], its [selectors] the empty array at location [0]. *)
Definition builder : nat := 0.
Definition initial : heap := Heap {[ 0 := [] ]} {[ builder := Some 0 ]}.

(** ** Calls and chains of calls *)

(** The six methods that add a fragment. *)
Inductive method := Element | Id | Class | Attr | PseudoClass | PseudoElement.

Definition invoke (m : method) : nat → string → M nat :=
  match m with
  | Element => element
  | Id => id
  | Class => class
  | Attr => attr
  | PseudoClass => pseudoClass
  | PseudoElement => pseudoElement
  end.

(** The kind of fragment a method adds, and the fragment itself. *)
Definition kind (m : method) : stype :=
  match m with
  | Element => TElement
  | Id => TId
  | Class => TClass
  | Attr => TAttr
  | PseudoClass => TPseudoClass
  | PseudoElement => TPseudoElement
  end.

Definition text (m : method) (value : string) : string :=
  match m with
  | Element => value
  | Id => "#" +:+ value
  | Class => "." +:+ value
  | Attr => "[" +:+ value +:+ "]"
  | PseudoClass => ":" +:+ value
  | PseudoElement => "::" +:+ value
  end.

Definition added (c : method * string) : fragment :=
  Fragment (text c.1 c.2) (kind c.1).

(** [this.m1(v1).m2(v2)...]: every call is made on the object the previous
    one returned; a throw ends the chain. *)
Fixpoint chain (calls : list (method * string)) (this : nat) : M nat :=
  match calls with
  | [] => ret this
  | c :: calls' => b ← invoke c.1 this c.2; chain calls' b
  end.

(** The fragment list an object holds: the array its [selectors] refers to. *)
Definition fragments (h : heap) (o : nat) : option (list fragment) :=
  match objects h !! o with
  | Some (Some a) => arrays h !! a
  | _ => None
  end.

(** ** The rules, as the specification words them *)

(** Position of a kind in the fixed order; a combinator has none. *)
Definition rank (t : stype) : option nat :=
  match t with
  | TElement => Some 0
  | TId => Some 1
  | TClass => Some 2
  | TAttr => Some 3
  | TPseudoClass => Some 4
  | TPseudoElement => Some 5
  | TCombinator => None
  end.

(** [earlier k t]: kind [k] comes before kind [t] in the fixed order. *)
Definition earlier (k t : stype) : bool :=
  match rank k, rank t with
  | Some i, Some j => (i <? j)%nat
  | _, _ => false
  end.

(** Element, id and pseudo-element may occur once. *)
Definition once_only (k : stype) : bool :=
  match k with
  | TElement | TId | TPseudoElement => true
  | _ => false
  end.

(** A call of kind [k] is out of order when a kind that comes later is
    already present, and a duplicate when [k] may occur once and is present. *)
Definition out_of_order (present : list stype) (k : stype) : bool :=
  existsb (earlier k) present.

Definition duplicate (present : list stype) (k : stype) : bool :=
  once_only k && includes present k.

(** The error of a call, the duplicate rule taking precedence. *)
Definition violation (present : list stype) (k : stype) : option error :=
  if duplicate present k then Some DuplicateError
  else if out_of_order present k then Some OrderError
  else None.

(** A chain respects the rules from the fragment list [acc] on when no call
    of it is in violation against what has been accumulated before it. *)
Fixpoint respects (acc : list fragment) (calls : list (method * string)) : bool :=
  match calls with
  | [] => true
  | c :: calls' =>
      match violation (map type acc) (kind c.1) with
      | Some _ => false
      | None => respects (acc ++ [added c]) calls'
      end
  end.

(** ** Notions used in the proofs *)

(** The statements every fragment-adding method ends with, from
    [Object.assign] on. *)
Definition extend (copyThis this : nat) (xs : list fragment) : M nat :=
  assign copyThis this;;
  a ← get_selectors copyThis;
  push a xs;;
  e ← new_array [];
  set_selectors this e;;
  ret copyThis.

(** The store in which a call has created its copy [{}]. *)
Definition with_copy (h : heap) : heap :=
  Heap (arrays h) (<[fresh (dom (objects h)) := None]> (objects h)).

(** The array at [a] now holds [l'] and belongs to the copy [c]; [this]
    refers to a new empty array. *)
Definition handed_over (h : heap) (this c a : nat) (l' : list fragment) : heap :=
  let arrs := <[a := l']> (arrays h) in
  Heap (<[fresh (dom arrs) := []]> arrs)
       (<[this := Some (fresh (dom arrs))]> (<[c := Some a]> (objects h))).

(** The argument a method passes to [checkOrder] ([pseudoElement] makes no
    such call; [6] stands for the empty tail). *)
Definition checked_from (m : method) : nat :=
  match m with
  | Element => 1
  | Id => 2
  | Class => 3
  | Attr => 4
  | PseudoClass => 5
  | PseudoElement => 6
  end.

(** The store [stringify] leaves: [this] refers to a new empty array. *)
Definition emptied (h : heap) (this : nat) : heap :=
  Heap (<[fresh (dom (arrays h)) := []]> (arrays h))
       (<[this := Some (fresh (dom (arrays h)))]> (objects h)).

(** No two objects of the store refer to the same array, and every array
    referred to is there. *)
Definition separate (h : heap) : Prop :=
  (∀ o a, objects h !! o = Some (Some a) → is_Some (arrays h !! a)) ∧
  (∀ o1 o2 a, objects h !! o1 = Some (Some a) →
              objects h !! o2 = Some (Some a) → o1 = o2).

(** A store in which the objects [1] and [2] hold built selectors and the
    object [0] holds none. *)
Definition sample_store : heap :=
  Heap {[ 0 := []; 1 := [Fragment "div" TElement];
          2 := [Fragment "table" TElement; Fragment "#data" TId] ]}
       {[ 0 := Some 0; 1 := Some 1; 2 := Some 2 ]}.

End cssSelectorBuilder.

(** * [Object.prototype] *)

Module Prototype.

(** The properties of [Object.prototype].  All of them are functions but
    [__proto__], an accessor: read on an object that an object literal made,
    it gives [Object.prototype] itself. *)
Inductive member :=
| Constructor | HasOwnProperty | IsPrototypeOf | PropertyIsEnumerable
| ToLocaleString | ToString | ValueOf | Proto
| DefineGetter | DefineSetter | LookupGetter | LookupSetter.

#[global] Instance member_eq_dec : EqDecision member.
Proof. solve_decision. Defined.

Definition name (m : member) : string :=
  match m with
  | Constructor => "constructor"
  | HasOwnProperty => "hasOwnProperty"
  | IsPrototypeOf => "isPrototypeOf"
  | PropertyIsEnumerable => "propertyIsEnumerable"
  | ToLocaleString => "toLocaleString"
  | ToString => "toString"
  | ValueOf => "valueOf"
  | Proto => "__proto__"
  | DefineGetter => "__defineGetter__"
  | DefineSetter => "__defineSetter__"
  | LookupGetter => "__lookupGetter__"
  | LookupSetter => "__lookupSetter__"
  end.

Definition members : list member :=
  [Constructor; HasOwnProperty; IsPrototypeOf; PropertyIsEnumerable;
   ToLocaleString; ToString; ValueOf; Proto;
   DefineGetter; DefineSetter; LookupGetter; LookupSetter].

(** What a read of [key] finds on [Object.prototype]. *)
Definition inherited (key : string) : option member :=
  List.find (λ m, bool_decide (name m = key)) members.

End Prototype.

(** * Numbers *)

Module Numbers.
Local Open Scope Z_scope.

(** A number: an integer that a double holds, an infinity, or [NaN].
    [Finite 0] stands for both zeros, which [===], [+] and [*] do not tell
    apart.  A double holds every integer below [2^53] in magnitude; beyond,
    it holds the integers of 53 significant bits, up to [2^1024]. *)
Inductive number :=
| Finite (z : Z)
| Infinity (negative : bool)
| NaN.

#[global] Instance number_eq_dec : EqDecision number.
Proof. solve_decision. Defined.

(** The double nearest to the integer [z], the one with an even significand
    when two are equally near; an infinity when that would take [2^1024]. *)
Definition round (z : Z) : number :=
  let m := Z.abs z in
  if m <? 2 ^ 53 then Finite z
  else
    let e := Z.log2 m - 52 in
    let q := m / 2 ^ e in
    let r := m mod 2 ^ e in
    let half := 2 ^ (e - 1) in
    let q' := if (half <? r) || ((r =? half) && Z.odd q) then q + 1 else q in
    if 2 ^ 1024 <=? q' * 2 ^ e then Infinity (z <? 0)
    else Finite (Z.sgn z * (q' * 2 ^ e)).

(** [x + y] *)
Definition add (x y : number) : number :=
  match x, y with
  | Finite a, Finite b => round (a + b)
  | Infinity s, Infinity s' => if Bool.eqb s s' then Infinity s else NaN
  | Infinity s, Finite _ => Infinity s
  | Finite _, Infinity s => Infinity s
  | _, _ => NaN
  end.

(** [x * y] *)
Definition multiply (x y : number) : number :=
  match x, y with
  | Finite a, Finite b => round (a * b)
  | Infinity s, Infinity s' => Infinity (xorb s s')
  | Infinity s, Finite b => if b =? 0 then NaN else Infinity (xorb s (b <? 0))
  | Finite a, Infinity s => if a =? 0 then NaN else Infinity (xorb s (a <? 0))
  | _, _ => NaN
  end.

(** [if (x)]: zero and [NaN] are falsy. *)
Definition truthy (x : number) : bool :=
  match x with
  | Finite z => negb (z =? 0)
  | Infinity _ => true
  | NaN => false
  end.

End Numbers.

(** * Object utilities *)

Module Objects.
Import Prototype.

(** Property values; the functions here are documented for objects without
    nested objects.  [VNaN] is the number that is not equal to itself.
    [VMember m] is the member [m] of [Object.prototype]: a value that a
    property may hold, as in [{constructor: Object}], and the value that a
    read finds for a name the object has no property of. *)
Inductive value :=
| VUndefined
| VNull
| VBool (b : bool)
| VNum (z : Z)
| VNaN
| VStr (s : string)
| VMember (m : member).

#[global] Instance value_eq_dec : EqDecision value.
Proof. solve_decision. Defined.

(** [v === w] *)
Definition strict_equal (v w : value) : bool :=
  match v with
  | VNaN => false
  | _ => bool_decide (v = w)
  end.

(** An object: its own properties, and whether [Object.freeze] has been
    applied to it. *)
Record object := Object { props : gmap string value; frozen : bool }.

(** [obj[key]]: the own property; when there is none, the member of
    [Object.prototype] of that name; [undefined] when there is none
    either. *)
Definition get (m : gmap string value) (key : string) : value :=
  match m !! key with
  | Some v => v
  | None =>
      match inherited key with
      | Some member => VMember member
      | None => VUndefined
      end
  end.

(** [Object.keys(obj)], in an order that the callers below do not depend on. *)
Definition keys (m : gmap string value) : list string := (map_to_list m).*1.

(** Code is strict or not; the module itself has no ['use strict'] directive,
    code that calls it may have one. *)
Inductive mode := NonStrict | Strict.

Inductive outcome := Done | TypeError.

(** What a refused operation does: nothing in non-strict code, a throw in
    strict code. *)
Definition refused (md : mode) : outcome :=
  match md with
  | NonStrict => Done
  | Strict => TypeError
  end.


(** [delete obj[key]]; deleting what is not there succeeds on any object. *)
Definition delete_property (md : mode) (key : string) (o : object)
    : outcome * object :=
  if frozen o then
    match props o !! key with
    | Some _ => (refused md, o)
    | None => (Done, o)
    end
  else (Done, Object (delete key (props o)) false).

(** [Object.freeze(obj)] *)
Definition freeze (o : object) : object := Object (props o) true.

(** The functions below take and return references into a store of
    objects. *)

(** [objCorrected] is the object [obj] itself, not a copy. *)
Definition removeProperties (h : gmap nat object) (obj : nat)
    (keys : list string) : gmap nat object * nat :=
  let objCorrected := obj in
  let h' :=
    foldl (λ h key, alter (λ o, (delete_property NonStrict key o).2)
                      objCorrected h) h keys in
  (h', objCorrected).

Definition compareObjects (obj1 obj2 : gmap string value) : bool :=
  let keyA := keys obj1 in
  let keyB := keys obj2 in
  if negb (length keyA =? length keyB)%nat then false
  else forallb (λ key, strict_equal (get obj1 key) (get obj2 key)) keyA.

Definition makeImmutable (h : gmap nat object) (obj : nat)
    : gmap nat object * nat :=
  (alter freeze obj h, obj).

(** [Object.assign(copiedObj, obj)] on the new object [copiedObj = {}]: the
    own properties of [obj] are copied, the freezing is not.  For a
    reference to no object the new object stays empty. *)
Definition shallowCopy (h : gmap nat object) (obj : nat)
    : gmap nat object * nat :=
  let copiedObj := fresh (dom h) in
  match h !! obj with
  | Some o => (<[copiedObj := Object (props o) false]> h, copiedObj)
  | None => (<[copiedObj := Object ∅ false]> h, copiedObj)
  end.

Definition isEmptyObject (obj : gmap string value) : bool :=
  (length (keys obj) =? 0)%nat.



(** ** Objects used in the examples *)

(** The object of the examples, [{a: 1, b: 2, c: 3}], alone in a store. *)
Definition abc : gmap string value :=
  {[ "a" := VNum 1; "b" := VNum 2; "c" := VNum 3 ]}.

Definition abc_store : gmap nat object := {[ 0 := Object abc false ]}.

(** The objects [{x: undefined, y: 1}] and [{y: 1, z: 2}]. *)
Definition xy : gmap string value := {[ "x" := VUndefined; "y" := VNum 1 ]}.
Definition yz : gmap string value := {[ "y" := VNum 1; "z" := VNum 2 ]}.

(** An object is plain when none of its properties holds [undefined],
    [NaN] or a member of [Object.prototype]. *)
Definition plain (m : gmap string value) : Prop :=
  ∀ k, m !! k ≠ Some VUndefined ∧ m !! k ≠ Some VNaN ∧
       ∀ member, m !! k ≠ Some (VMember member).

(** The objects [{constructor: Object}] and [{a: 1}]. *)
Definition with_constructor : gmap string value :=
  {[ "constructor" := VMember Constructor ]}.
Definition with_a : gmap string value := {[ "a" := VNum 1 ]}.

End Objects.

(** * Order of first appearance *)

(** The distinct elements of a list in the order of their first
    appearance. *)
Fixpoint first_seen {A} `{EqDecision A} (l : list A) : list A :=
  match l with
  | [] => []
  | x :: l' => x :: filter (λ y, y ≠ x) (first_seen l')
  end.

(** A list of keys that takes a key it has not seen at its end. *)
Definition see {A} `{EqDecision A} (acc : list A) (x : A) : list A :=
  if decide (x ∈ acc) then acc else acc ++ [x].

(** * Merging objects *)

Module Merge.
Import Prototype Numbers.
Local Open Scope Z_scope.

(** The value of a string of decimal digits, read after the digits already
    worth [acc]. *)
Fixpoint digits_value (s : string) (acc : N) : option N :=
  match s with
  | EmptyString => Some acc
  | String c s' =>
      match Ascii.is_nat c with
      | Some d => digits_value s' (10 * acc + N.of_nat d)%N
      | None => None
      end
  end.

(** A property key is an array index when it is the decimal numeral, written
    without leading zeros, of an integer from [0] to [2^32 - 2]. *)
Definition array_index (key : string) : option N :=
  match key with
  | EmptyString => None
  | String "0"%char EmptyString => Some 0%N
  | String "0"%char _ => None
  | _ =>
      match digits_value key 0 with
      | Some n => if (n <? 2 ^ 32 - 1)%N then Some n else None
      | None => None
      end
  end.

(** Whether a key that is new to the object is enumerated before the key
    [key'] that the object has. *)
Definition goes_before (key key' : string) : bool :=
  match array_index key, array_index key' with
  | Some i, Some j => (i <? j)%N
  | Some _, None => true
  | None, _ => false
  end.

(** An object, as the list of its own properties in the order in which
    [Object.entries] and [Object.keys] give them: the keys that are array
    indices first, in ascending order, then the other keys in the order in
    which they were created. *)
Section properties.
Context {V : Type}.

(** The own property [key]. *)
Fixpoint obj_get (key : string) (o : list (string * V)) : option V :=
  match o with
  | [] => None
  | (k, v) :: o' => if decide (k = key) then Some v else obj_get key o'
  end.

(** A new property takes its place in the enumeration. *)
Fixpoint add_property (key : string) (v : V) (o : list (string * V))
    : list (string * V) :=
  match o with
  | [] => [(key, v)]
  | (k, w) :: o' =>
      if goes_before key k then (key, v) :: o
      else (k, w) :: add_property key v o'
  end.

(** A property that exists keeps its place. *)
Fixpoint replace_value (key : string) (v : V) (o : list (string * V))
    : list (string * V) :=
  match o with
  | [] => []
  | (k, w) :: o' =>
      if decide (k = key) then (k, v) :: o'
      else (k, w) :: replace_value key v o'
  end.

(** The own property [key] is given the value [v]. *)
Definition set_property (key : string) (v : V) (o : list (string * V))
    : list (string * V) :=
  match obj_get key o with
  | Some _ => replace_value key v o
  | None => add_property key v o
  end.

End properties.

(** What [mergedObj[key]] may be, the objects of the input holding numbers:
    a number; a string, which is the text of a member of [Object.prototype]
    followed by the numerals of the numbers added to it since; or, before
    anything was stored under its name, the member itself. *)
Inductive value :=
| Num (n : number)
| Str (m : member) (appended : list number)
| Member (m : member).

(** [mergedObj[key]]: the own property; when there is none, the member of
    [Object.prototype] of that name; [undefined] ([None]) when there is
    none either. *)
Definition get (key : string) (mergedObj : list (string * value))
    : option value :=
  match obj_get key mergedObj with
  | Some x => Some x
  | None => Member <$> inherited key
  end.

(** [if (x)]: a function and [Object.prototype] are truthy, and so is a
    string that begins with the text of one of them. *)
Definition truthy (x : option value) : bool :=
  match x with
  | Some (Num n) => Numbers.truthy n
  | Some (Str _ _) => true
  | Some (Member _) => true
  | None => false
  end.

(** [x + value], for [value] a number: two numbers are added; a string
    takes the numeral of [value] at its end; a function, or
    [Object.prototype], is first turned into its text. *)
Definition plus (x : option value) (v : number) : value :=
  match x with
  | Some (Num n) => Num (add n v)
  | Some (Str m appended) => Str m (appended ++ [v])
  | Some (Member m) => Str m [v]
  | None => Num NaN
  end.

(** [mergedObj[key] = x], for [x] a number or a string.  [__proto__] is an
    accessor property of [Object.prototype]: the assignment calls its
    setter, which ignores such a value, and makes no own property. *)
Definition assign (key : string) (x : value)
    (mergedObj : list (string * value)) : list (string * value) :=
  if decide (key = "__proto__") then mergedObj
  else set_property key x mergedObj.

(** The body of the inner [forEach], for the entry [[key, value]]. *)
Definition merge_entry (mergedObj : list (string * value))
    (entry : string * number) : list (string * value) :=
  let '(key, value) := entry in
  if truthy (get key mergedObj)
  then assign key (plus (get key mergedObj) value) mergedObj
  else assign key (Num value) mergedObj.

(** Every object of [objects] is given by [Object.entries] of it. *)
Definition mergeObjects (objects : list (list (string * number)))
    : list (string * value) :=
  foldl (λ mergedObj obj, foldl merge_entry mergedObj obj) [] objects.

(** ** The result, as the specification words it *)

(** The sum of the values that the entries [all] give for [key]. *)
Definition total (key : string) (all : list (string * Z)) : Z :=
  foldr Z.add 0 (filter (λ kv, kv.1 = key) all).*2.

(** The sum of their magnitudes, which bounds the sum of any of them. *)
Definition magnitude (key : string) (all : list (string * Z)) : Z :=
  foldr Z.add 0 (Z.abs <$> (filter (λ kv, kv.1 = key) all).*2).

(** An object of the input whose values are the integers given. *)
Definition numbers (o : list (string * Z)) : list (string * number) :=
  prod_map id Finite <$> o.

(** A merged object that holds the integers given. *)
Definition holding (o : list (string * Z)) : list (string * value) :=
  prod_map id (λ z, Num (Finite z)) <$> o.

(** A merged object that holds the numbers given. *)
Definition merged_of (o : list (string * number)) : list (string * value) :=
  prod_map id Num <$> o.

(** The merged object read as an object of the input, when it holds numbers
    only. *)
Definition numeric (o : list (string * value))
    : option (list (string * number)) :=
  mapM (λ kv, match kv.2 with
              | Num n => Some (kv.1, n)
              | _ => None
              end) o.

(** The values that the entries give for [key], in their order. *)
Definition given (key : string) (entries : list (string * number))
    : list number :=
  (filter (λ kv, kv.1 = key) entries).*2.

(** The step of the merge with the sum taken in the integers. *)
Definition sum_entry (acc : list (string * Z)) (entry : string * Z)
    : list (string * Z) :=
  let '(key, value) := entry in
  set_property key (default 0 (obj_get key acc) + value) acc.

Definition is_index (key : string) : Prop := is_Some (array_index key).

#[global] Instance is_index_dec (key : string) : Decision (is_index key).
Proof. unfold is_index. apply _. Defined.

(** Ascending numeric order of array indices. *)
Definition index_le (k k' : string) : Prop :=
  match array_index k, array_index k' with
  | Some i, Some j => (i ≤ j)%N
  | _, _ => False
  end.

(** The order of enumeration between two keys of one object: array indices
    in ascending order, then the other keys. *)
Definition enumerated_before (k k' : string) : Prop :=
  match array_index k, array_index k' with
  | Some i, Some j => (i ≤ j)%N
  | Some _, None => True
  | None, None => True
  | None, Some _ => False
  end.

(** A list of entries is the enumeration of an object when no key occurs
    twice and the keys are in the order of enumeration. *)
Definition enumeration {V} (o : list (string * V)) : Prop :=
  NoDup o.*1 ∧ StronglySorted enumerated_before o.*1.

End Merge.

(** * Grouping *)

Module Grouping.
Import Objects.

Section map.
Context {K : Type} `{EqDecision K}.

(** A [Map], as the list of its entries in insertion order.
    [Map.prototype.set] gives a key that exists its new value in place and
    puts a new key at the end.  A [Map] takes two keys for the same when
    they are the same value, [NaN] being the same as [NaN]. *)
Fixpoint map_set {W} (k : K) (v : W) (m : list (K * W)) : list (K * W) :=
  match m with
  | [] => [(k, v)]
  | (k', v') :: m' =>
      if decide (k' = k) then (k', v) :: m'
      else (k', v') :: map_set k v m'
  end.

(** [new Map(pairs)] *)
Definition new_Map {W} (pairs : list (K * W)) : list (K * W) :=
  foldl (λ m p, map_set p.1 p.2 m) [] pairs.

End map.

Section group.
Context {E V : Type}.

(** The keys are values as [Objects.value] has them, which the code compares
    with [===]: [NaN] is not equal to itself. *)
Definition group (array : list E) (keySelector : E → value)
    (valueSelector : E → V) : list (value * list V) :=
  let arrayMap :=
    map (λ element,
           let values :=
             foldl (λ acc item,
                      if strict_equal (keySelector element) (keySelector item)
                      then acc ++ [valueSelector item]
                      else acc) [] array in
           (keySelector element, values)) array in
  new_Map arrayMap.

End group.

(** The array of the documented example. *)
Definition cities : list (string * string) :=
  [("Belarus", "Brest"); ("Russia", "Omsk"); ("Russia", "Samara");
   ("Belarus", "Grodno"); ("Belarus", "Minsk"); ("Poland", "Lodz")].

End Grouping.

(** * Sorting cities *)

Module Cities.
Local Open Scope Z_scope.

(** [{ country: ..., city: ... }] *)
Record place := Place { country : string; city : string }.

(** [s[0]]: the first character, [undefined] ([None]) for the empty
    string. *)
Definition first_char (s : string) : option ascii :=
  match s with
  | EmptyString => None
  | String c _ => Some c
  end.

(** [x === y] and [x > y] for [x], [y] each a one-character string or
    [undefined]; a comparison with [undefined] is false. *)
Definition same (x y : option ascii) : bool := bool_decide (x = y).

Definition greater (x y : option ascii) : bool :=
  match x, y with
  | Some a, Some b => (nat_of_ascii b <? nat_of_ascii a)%nat
  | _, _ => false
  end.

(** The comparison function passed to [sort]. *)
Definition comparator (a b : place) : Z :=
  if same (first_char (country a)) (first_char (country b))
  then if greater (first_char (city a)) (first_char (city b)) then 1 else -1
  else if greater (first_char (country a)) (first_char (country b))
       then 1 else -1.






(** ** The order, as the specification words it *)

(** The code of the first character ([0] for the empty string). *)
Definition initial (s : string) : nat :=
  match s with
  | EmptyString => 0%nat
  | String c _ => nat_of_ascii c
  end.





(** The array of the documented example, as the documentation gives it,
    and its result. *)
Definition cities : list place :=
  [Place "Russia" "Moscow"; Place "Belarus" "Minsk"; Place "Poland" "Warsaw";
   Place "Russia" "Saint Petersburg"; Place "Poland" "Krakow";
   Place "Belarus" "Brest"].


(** Three places, one of them without a country. *)
Definition nameless : list place :=
  [Place "A" "z"; Place "" "y"; Place "B" "x"].

End Cities.

(** * The ticket seller *)

Module Tickets.
Local Open Scope Z_scope.

(** What [payments[100]] can be.  The object literal has no such key;
    [payments[queue[i]] += 1] then stores [undefined + 1], which is no number,
    and adding [1] to that is no number again. *)
Inductive hundreds := Missing | NotANumber.

(** [payments]: the counts under the keys [25] and [50], and the entry under
    [100]. *)
Record payments := Payments { p25 : Z; p50 : Z; p100 : hundreds }.

(** [while (rest > 0 && payments[25] > 0) { rest -= 25; payments[25] -= 1; }]
    for at most [fuel] rounds; returns [rest] and [payments[25]]. *)
Fixpoint give25 (fuel : nat) (rest n25 : Z) : Z * Z :=
  match fuel with
  | O => (rest, n25)
  | S fuel' =>
      if (0 <? rest) && (0 <? n25)
      then give25 fuel' (rest - 25) (n25 - 1)
      else (rest, n25)
  end.

(** One round of the [for] loop: [None] is [return false]. *)
Definition serve (p : payments) (bill : Z) : option payments :=
  if bill =? 100 then
    let rest := 75 in
    let '(rest, p) :=
      if negb (p50 p =? 0)
      then (rest - 50, Payments (p25 p) (p50 p - 1) (p100 p))
      else (rest, p) in
    let '(rest, n25) := give25 3 rest (p25 p) in
    if negb (rest =? 0) then None
    else Some (Payments n25 (p50 p) NotANumber)
  else if bill =? 50 then
    if p25 p =? 0 then None
    else Some (Payments (p25 p - 1) (p50 p + 1) (p100 p))
  else
    Some (Payments (p25 p + 1) (p50 p) (p100 p)).

Fixpoint serve_all (queue : list Z) (p : payments) : bool :=
  match queue with
  | [] => true
  | bill :: queue' =>
      match serve p bill with
      | None => false
      | Some p' => serve_all queue' p'
      end
  end.

Definition sellTickets (queue : list Z) : bool :=
  serve_all queue (Payments 0 0 Missing).

(** ** The rules, as the specification words them *)

(** The till: how many bills of 25 and of 50 the seller holds. *)
Record till := Till { n25 : nat; n50 : nat }.

Definition is_bill (b : Z) : Prop := b = 25 ∨ b = 50 ∨ b = 100.

(** A 25 is accepted.  A 50 needs a 25 for change.  A 100 needs 75 of
    change: one 50 if there is one and then one 25, three 25s otherwise. *)
Definition spec_serve (t : till) (bill : Z) : option till :=
  if bill =? 25 then Some (Till (n25 t + 1) (n50 t))
  else if bill =? 50 then
    if (1 <=? n25 t)%nat then Some (Till (n25 t - 1) (n50 t + 1)) else None
  else if bill =? 100 then
    if (1 <=? n50 t)%nat then
      if (1 <=? n25 t)%nat then Some (Till (n25 t - 1) (n50 t - 1)) else None
    else
      if (3 <=? n25 t)%nat then Some (Till (n25 t - 3) (n50 t)) else None
  else None.

(** The till after the whole queue, [None] as soon as a bill cannot be
    served. *)
Fixpoint spec_till (queue : list Z) (t : till) : option till :=
  match queue with
  | [] => Some t
  | bill :: queue' =>
      match spec_serve t bill with
      | None => None
      | Some t' => spec_till queue' t'
      end
  end.

(** The counts of [payments] and the till agree. *)
Definition agree (p : payments) (t : till) : Prop :=
  p25 p = Z.of_nat (n25 t) ∧ p50 p = Z.of_nat (n50 t).

(** ** Serving with any choice of change *)

(** What the [switch] makes of a queue element: [100] and [50] have their
    own cases, every other value falls to [default]. *)
Definition taken_as (bill : Z) : Z :=
  if (bill =? 100) || (bill =? 50) then bill else 25.

(** The seller serves a bill from the till, free to give the change for a
    100 as one 50 and one 25 or as three 25s. *)
Inductive can_serve : till → Z → till → Prop :=
| serve_25 t : can_serve t 25 (Till (n25 t + 1) (n50 t))
| serve_50 t :
    (1 ≤ n25 t)%nat → can_serve t 50 (Till (n25 t - 1) (n50 t + 1))
| serve_100_with_50 t :
    (1 ≤ n50 t)%nat → (1 ≤ n25 t)%nat →
    can_serve t 100 (Till (n25 t - 1) (n50 t - 1))
| serve_100_with_25s t :
    (3 ≤ n25 t)%nat → can_serve t 100 (Till (n25 t - 3) (n50 t)).

Inductive can_serve_all : till → list Z → Prop :=
| serve_none t : can_serve_all t []
| serve_next t bill t' queue :
    can_serve t bill t' → can_serve_all t' queue →
    can_serve_all t (bill :: queue).

(** Money in the till, in units of 25. *)
Definition worth (t : till) : nat := (n25 t + 2 * n50 t)%nat.

(** The till [g] has the worth of [s] and at least as many 25s. *)
Definition at_least_as_good (g s : till) : Prop :=
  worth g = worth s ∧ (n25 s ≤ n25 g)%nat.

End Tickets.

(** * Making a word *)

Module Words.

(** The array [letters]: [None] is a hole, an index below the length that
    was never assigned. *)


(** [letters.join('')]: a hole gives the empty string. *)
Definition join (letters : list (option string)) : string :=
  String.concat "" (map (default "") letters).




End Words.

(** * Rectangles *)

Module Rectangles.
Import Numbers.

(** An object made by [new Rectangle(...)], or a copy of one.  [getArea] is
    an arrow function: it reads [width] and [height] of the [this] of the
    constructor call in which it was made, which the field records. *)
Record rectangle := { width : number; height : number; getArea : nat }.

(** [new Rectangle(width, height)] *)
Definition Rectangle (h : gmap nat rectangle) (width height : number)
    : gmap nat rectangle * nat :=
  let this := fresh (dom h) in
  (<[this := {| width := width; height := height; getArea := this |}]> h,
   this).

(** [r.getArea()]; [None] for a reference to no rectangle. *)
Definition call_getArea (h : gmap nat rectangle) (r : nat)
    : option number :=
  o ← h !! r;
  this ← h !! getArea o;
  Some (multiply (width this) (height this)).

(** [r.width = w] and [r.height = w] *)
Definition set_width (h : gmap nat rectangle) (r : nat) (w : number)
    : gmap nat rectangle :=
  alter (λ o, {| width := w; height := height o; getArea := getArea o |}) r h.

Definition set_height (h : gmap nat rectangle) (r : nat) (w : number)
    : gmap nat rectangle :=
  alter (λ o, {| width := width o; height := w; getArea := getArea o |}) r h.

(** [shallowCopy(r)]: [Object.assign] copies the three own properties, the
    function among them, to a new object. *)
Definition shallowCopy (h : gmap nat rectangle) (obj : nat)
    : option (gmap nat rectangle * nat) :=
  o ← h !! obj;
  let copiedObj := fresh (dom h) in
  Some (<[copiedObj := o]> h, copiedObj).

End Rectangles.

(** * Properties *)

(** ** The selector builder *)

Section builder_store.
Import cssSelectorBuilder.

Lemma fresh_unused {V} (m : gmap nat V) : m !! fresh (dom m) = None.
Proof. apply not_elem_of_dom, is_fresh. Qed.

Lemma fresh_differs {V} (m : gmap nat V) (i : nat) (v : V) :
  m !! i = Some v → fresh (dom m) ≠ i.
Proof. intros Hi E. rewrite <- E, fresh_unused in Hi. discriminate. Qed.

Lemma fragments_eq h o a l :
  objects h !! o = Some (Some a) → arrays h !! a = Some l →
  fragments h o = Some l.
Proof. intros Ho Ha. unfold fragments. by rewrite Ho. Qed.

Lemma fragments_inv h o l :
  fragments h o = Some l →
  ∃ a, objects h !! o = Some (Some a) ∧ arrays h !! a = Some l.
Proof.
  unfold fragments. destruct (objects h !! o) as [[a|]|]; try discriminate.
  intros Ha. by exists a.
Qed.

(** [filter(...).length >= 1] holds exactly when the kind is included. *)
Lemma filter_length_includes (l : list fragment) (ty : stype) :
  (1 <=? length (List.filter (λ e, bool_decide (type e = ty)) l))%nat
  = includes (map type l) ty.
Proof.
  induction l as [|f l IH]; [done|]. simpl.
  destruct (bool_decide (type f = ty)); [done|]. exact IH.
Qed.

Lemma includes_nil_false (L : list stype) :
  existsb (λ e, includes [] e) L = false.
Proof. induction L; [done|]. simpl. exact IHL. Qed.

Lemma includes_elem (present : list stype) (e : stype) :
  includes present e = bool_decide (e ∈ present).
Proof.
  unfold includes. induction present as [|t present IH]; simpl.
  - done.
  - rewrite IH. destruct (decide (t = e)) as [->|Hne].
    + rewrite bool_decide_eq_true_2 by done. simpl. symmetry.
      apply bool_decide_eq_true. left.
    + rewrite (bool_decide_eq_false_2 (t = e)) by done. simpl.
      apply bool_decide_ext. rewrite elem_of_cons. intuition congruence.
Qed.

(** [some] over the tail of [order] against [includes], read from the side of
    the fragments present. *)
Lemma some_includes_swap (present L : list stype) :
  existsb (λ e, includes present e) L
  = existsb (λ t, bool_decide (t ∈ L)) present.
Proof.
  apply eq_true_iff_eq. rewrite !existsb_exists. split.
  - intros (e & He & Hin). exists e. rewrite includes_elem in Hin.
    apply bool_decide_eq_true in Hin. split.
    + by apply list_elem_of_In.
    + apply bool_decide_eq_true. by apply list_elem_of_In.
  - intros (t & Ht & Hin). exists t. apply bool_decide_eq_true in Hin.
    split.
    + by apply list_elem_of_In.
    + rewrite includes_elem. apply bool_decide_eq_true.
      by apply list_elem_of_In.
Qed.

Lemma existsb_ext_all {A} (f g : A → bool) (l : list A) :
  (∀ x, f x = g x) → existsb f l = existsb g l.
Proof. intros E. induction l; simpl; [done|]. by rewrite E, IHl. Qed.

(** The tail of [order] that a method checks holds the kinds that come
    after the method's own. *)
Lemma order_tail_later (m : method) (present : list stype) :
  existsb (λ e, includes present e) (drop (checked_from m) order)
  = out_of_order present (kind m).
Proof.
  rewrite some_includes_swap. unfold out_of_order.
  apply existsb_ext_all. intros t. destruct m, t; reflexivity.
Qed.

(** *** The two checks *)

Lemma checkType_run h this l ty :
  fragments h this = Some l →
  checkType this ty h
  = (if includes (map type l) ty then Throw DuplicateError else Ok tt, h).
Proof.
  intros (a & Ho & Ha)%fragments_inv.
  unfold checkType, mbind, M_bind, bind, get_selectors, read_array.
  rewrite Ho, Ha, filter_length_includes.
  by destruct (includes (map type l) ty).
Qed.

Lemma checkOrder_run h this l n :
  fragments h this = Some l →
  checkOrder this n h
  = (if existsb (λ e, includes (map type l) e) (drop n order)
     then Throw OrderError else Ok tt, h).
Proof.
  intros (a & Ho & Ha)%fragments_inv.
  unfold checkOrder, mbind, M_bind, bind, get_selectors, read_array.
  rewrite Ho, Ha. destruct l as [|f l]; simpl.
  - by rewrite includes_nil_false.
  - by destruct (existsb _ _).
Qed.

(** *** The store a successful call leaves *)

Lemma handed_over_copy h this c a l' :
  c ≠ this → fragments (handed_over h this c a l') c = Some l'.
Proof.
  intros Hne. unfold fragments, handed_over. simpl.
  rewrite lookup_insert_ne, lookup_insert_eq by done.
  rewrite lookup_insert_ne, lookup_insert_eq; [done|].
  apply (fresh_differs _ a l'), lookup_insert_eq.
Qed.

Lemma handed_over_this h this c a l' :
  fragments (handed_over h this c a l') this = Some [].
Proof.
  unfold fragments, handed_over. simpl. by rewrite !lookup_insert_eq.
Qed.

Lemma handed_over_objects h this c a l' o :
  o ≠ this → o ≠ c →
  objects (handed_over h this c a l') !! o = objects h !! o.
Proof. intros H1 H2. unfold handed_over. simpl. by rewrite !lookup_insert_ne. Qed.

Lemma handed_over_arrays h this c a l' b lb :
  b ≠ a → arrays h !! b = Some lb →
  arrays (handed_over h this c a l') !! b = Some lb.
Proof.
  intros Hne Hb. unfold handed_over. simpl.
  rewrite lookup_insert_ne, lookup_insert_ne; [done|done|].
  apply (fresh_differs _ b lb). by rewrite lookup_insert_ne.
Qed.

Lemma extend_run h this c a l fc xs :
  objects h !! c = Some fc →
  objects h !! this = Some (Some a) →
  arrays h !! a = Some l →
  c ≠ this →
  extend c this xs h = (Ok c, handed_over h this c a (l ++ xs)).
Proof.
  intros Hc Ho Ha Hne.
  unfold extend, mbind, M_bind, bind, assign, get_selectors, push,
    new_array, set_selectors, mret, M_ret, ret. simpl.
  rewrite Hc, Ho. simpl. rewrite lookup_insert_eq. simpl. rewrite Ha. simpl.
  rewrite lookup_insert_ne, Ho by done. done.
Qed.

(** *** One call *)

Lemma element_extend this value :
  element this value
  = (checkType this TElement;; checkOrder this 1;;
     copyThis ← new_object; extend copyThis this [Fragment value TElement]).
Proof. reflexivity. Qed.

Lemma id_extend this value :
  id this value
  = (copyThis ← new_object; checkType this TId;; checkOrder this 2;;
     extend copyThis this [Fragment ("#" +:+ value) TId]).
Proof. reflexivity. Qed.

Lemma class_extend this value :
  class this value
  = (checkOrder this 3;; copyThis ← new_object;
     extend copyThis this [Fragment ("." +:+ value) TClass]).
Proof. reflexivity. Qed.

Lemma attr_extend this value :
  attr this value
  = (checkOrder this 4;; copyThis ← new_object;
     extend copyThis this [Fragment ("[" +:+ value +:+ "]") TAttr]).
Proof. reflexivity. Qed.

Lemma pseudoClass_extend this value :
  pseudoClass this value
  = (checkOrder this 5;; copyThis ← new_object;
     extend copyThis this [Fragment (":" +:+ value) TPseudoClass]).
Proof. reflexivity. Qed.

Lemma pseudoElement_extend this value :
  pseudoElement this value
  = (checkType this TPseudoElement;; copyThis ← new_object;
     extend copyThis this [Fragment ("::" +:+ value) TPseudoElement]).
Proof. reflexivity. Qed.

Lemma nothing_after_pseudoElement (present : list stype) :
  out_of_order present TPseudoElement = false.
Proof.
  unfold out_of_order. induction present as [|t present IH]; [done|].
  simpl. rewrite IH. by destruct t.
Qed.

Lemma with_copy_fragments h o l :
  fragments h o = Some l → fragments (with_copy h) o = Some l.
Proof.
  intros (a & Ho & Ha)%fragments_inv. apply (fragments_eq _ _ a); [|done].
  simpl. rewrite lookup_insert_ne; [done|]. by apply (fresh_differs _ o (Some a)).
Qed.

Lemma invoke_run h this a l m v :
  objects h !! this = Some (Some a) →
  arrays h !! a = Some l →
  let c := fresh (dom (objects h)) in
  invoke m this v h =
    match violation (map type l) (kind m) with
    | Some e => (Throw e, match m with Id => with_copy h | _ => h end)
    | None => (Ok c, handed_over (with_copy h) this c a (l ++ [added (m, v)]))
    end.
Proof.
  intros Ho Ha c.
  assert (Hl : fragments h this = Some l) by by apply (fragments_eq _ _ a).
  assert (Hl' := with_copy_fragments _ _ _ Hl).
  assert (Hc : c ≠ this) by by apply (fresh_differs _ this (Some a)).
  assert (Hext : ∀ xs, extend c this xs (with_copy h)
            = (Ok c, handed_over (with_copy h) this c a (l ++ xs))).
  { intros xs. apply (extend_run _ _ _ _ _ None); simpl; try done.
    - apply lookup_insert_eq.
    - by rewrite lookup_insert_ne. }
  assert (Hnew : new_object h = (Ok c, with_copy h)) by done.
  unfold violation, duplicate.
  pose proof (order_tail_later m (map type l)) as Hord.
  destruct m; cbn [invoke kind once_only andb checked_from] in Hord |- *;
    rewrite ?element_extend, ?id_extend, ?class_extend, ?attr_extend,
      ?pseudoClass_extend, ?pseudoElement_extend;
    unfold mbind, M_bind, bind;
    rewrite ?Hnew, ?nothing_after_pseudoElement;
    rewrite ?(checkType_run _ _ _ _ Hl), ?(checkType_run _ _ _ _ Hl');
    try (destruct (includes (map type l) _); [done|]);
    rewrite ?(checkOrder_run _ _ _ _ Hl), ?(checkOrder_run _ _ _ _ Hl'), ?Hord;
    try (destruct (out_of_order (map type l) _); [done|]);
    rewrite ?Hnew; apply Hext.
Qed.

Lemma invoke_throws h this l m v e :
  fragments h this = Some l →
  violation (map type l) (kind m) = Some e →
  (invoke m this v h).1 = Throw e.
Proof.
  intros (a & Ho & Ha)%fragments_inv Hv.
  rewrite (invoke_run h this a l m v Ho Ha), Hv. done.
Qed.

Lemma invoke_returns h this l m v :
  fragments h this = Some l →
  violation (map type l) (kind m) = None →
  ∃ c h', invoke m this v h = (Ok c, h')
    ∧ fragments h' c = Some (l ++ [added (m, v)])
    ∧ fragments h' this = Some [].
Proof.
  intros (a & Ho & Ha)%fragments_inv Hv.
  rewrite (invoke_run h this a l m v Ho Ha), Hv.
  eexists _, _. split; [done|]. split.
  - apply handed_over_copy. by apply (fresh_differs _ this (Some a)).
  - apply handed_over_this.
Qed.

Lemma violation_nil (k : stype) : violation [] k = None.
Proof. by destruct k. Qed.

(** *** Chains *)

Lemma chain_app pre post this h :
  chain (pre ++ post) this h
  = match chain pre this h with
    | (Ok b, h1) => chain post b h1
    | (Throw e, h1) => (Throw e, h1)
    end.
Proof.
  revert this h. induction pre as [|c pre IH]; intros this h; [done|].
  simpl. unfold mbind, M_bind, bind.
  destruct (invoke c.1 this c.2 h) as [[b|e] h1]; [apply IH|done].
Qed.

Lemma chain_respects pre : ∀ h this l,
  fragments h this = Some l →
  respects l pre = true →
  ∃ b h1, chain pre this h = (Ok b, h1)
    ∧ fragments h1 b = Some (l ++ map added pre).
Proof.
  induction pre as [|[m v] pre IH]; intros h this l Hl Hr.
  - exists this, h. by rewrite app_nil_r.
  - simpl in Hr.
    destruct (violation (map type l) (kind m)) eqn:Hv; [discriminate|].
    destruct (invoke_returns h this l m v Hl Hv) as (c & h' & Hrun & Hc & _).
    destruct (IH h' c _ Hc Hr) as (b & h1 & Hchain & Hb).
    exists b, h1. split.
    + simpl. unfold mbind, M_bind, bind. by rewrite Hrun.
    + rewrite Hb. simpl. by rewrite <- app_assoc.
Qed.

(** *** [combine] and [stringify] *)

Lemma stringify_run h this l :
  fragments h this = Some l →
  ∃ h', stringify this h = (Ok (join l), h') ∧ fragments h' this = Some [].
Proof.
  intros (a & Ho & Ha)%fragments_inv.
  unfold stringify, mbind, M_bind, bind, get_selectors, read_array.
  rewrite Ho, Ha. unfold new_array, set_selectors. simpl. rewrite Ho.
  eexists. split; [done|]. unfold fragments. simpl.
  by rewrite !lookup_insert_eq.
Qed.

Lemma bind_returns {A B} (m : M A) (k : A → M B) h b h2 :
  (m ≫= k) h = (Ok b, h2) →
  ∃ a h1, m h = (Ok a, h1) ∧ k a h1 = (Ok b, h2).
Proof.
  unfold mbind, M_bind, bind. destruct (m h) as [[a|e] h1]; [|discriminate].
  intros Hk. by exists a, h1.
Qed.

(** The statements [this.selectors = []; return r]. *)
Lemma reset_returns {A} h this (r r' : A) h' :
  (e ← new_array []; set_selectors this e;; ret r) h = (Ok r', h') →
  fragments h' this = Some [].
Proof.
  unfold mbind, M_bind, bind, new_array, set_selectors, ret. simpl.
  destruct (objects h !! this); [|discriminate].
  intros [= _ <-]. unfold fragments. simpl. by rewrite !lookup_insert_eq.
Qed.

Lemma combine_resets h this selector1 combinator selector2 c h' :
  combine this selector1 combinator selector2 h = (Ok c, h') →
  fragments h' this = Some [].
Proof.
  unfold combine. intros H.
  do 8 (apply bind_returns in H as (? & ? & _ & H)).
  by apply reset_returns in H.
Qed.

Lemma bind_ok {A B} (m : M A) (k : A → M B) h a h1 :
  m h = (Ok a, h1) → (m ≫= k) h = k a h1.
Proof. intros Hm. unfold mbind, M_bind, bind. by rewrite Hm. Qed.

Lemma combine_run h this a l selector1 l1 combinator selector2 l2 :
  objects h !! this = Some (Some a) →
  arrays h !! a = Some l →
  fragments h selector1 = Some l1 →
  fragments h selector2 = Some l2 →
  let c := fresh (dom (objects h)) in
  combine this selector1 combinator selector2 h
  = (Ok c, handed_over (with_copy h) this c a
       (l ++ l1 ++ [Fragment (" " +:+ combinator +:+ " ") TCombinator] ++ l2)).
Proof.
  intros Ho Ha (a1 & Ho1 & Ha1)%fragments_inv (a2 & Ho2 & Ha2)%fragments_inv c.
  assert (Hc : ∀ o f, objects h !! o = Some f → c ≠ o)
    by (intros o f; apply fresh_differs).
  unfold combine.
  rewrite (bind_ok new_object _ h c (with_copy h)) by done.
  set (h2 := Heap (arrays h) (<[c := Some a]> (objects (with_copy h)))).
  assert (Hlook : ∀ o f, objects h !! o = Some f → objects h2 !! o = Some f).
  { intros o f Hf. simpl. rewrite !lookup_insert_ne; eauto. }
  rewrite (bind_ok (assign _ _) _ _ tt h2).
  2: { unfold assign. simpl. rewrite lookup_insert_eq.
       rewrite lookup_insert_ne, Ho; eauto. }
  rewrite (bind_ok (get_selectors c) _ _ a h2).
  2: { unfold get_selectors. simpl. by rewrite lookup_insert_eq. }
  rewrite (bind_ok (get_selectors selector1) _ _ a1 h2).
  2: { unfold get_selectors. by rewrite (Hlook _ _ Ho1). }
  rewrite (bind_ok (read_array a1) _ _ l1 h2).
  2: { unfold read_array. simpl. by rewrite Ha1. }
  rewrite (bind_ok (get_selectors selector2) _ _ a2 h2).
  2: { unfold get_selectors. by rewrite (Hlook _ _ Ho2). }
  rewrite (bind_ok (read_array a2) _ _ l2 h2).
  2: { unfold read_array. simpl. by rewrite Ha2. }
  unfold mbind, M_bind, bind, push, new_array, set_selectors. simpl.
  rewrite Ha. simpl. rewrite lookup_insert_ne, lookup_insert_ne, Ho; eauto.
Qed.

Lemma string_app_nil_r (s : string) : s +:+ "" = s.
Proof.
  induction s as [|c s IH]; [done|].
  change (String c (s +:+ "") = String c s). by rewrite IH.
Qed.

Lemma string_app_assoc (s1 s2 s3 : string) :
  (s1 +:+ s2) +:+ s3 = s1 +:+ (s2 +:+ s3).
Proof.
  induction s1 as [|c s1 IH]; [done|].
  change (String c ((s1 +:+ s2) +:+ s3) = String c (s1 +:+ (s2 +:+ s3))).
  by rewrite IH.
Qed.

(** [join('')] appends the strings one after the other. *)
Lemma concat_empty_foldr (l : list string) :
  String.concat "" l = foldr String.append "" l.
Proof.
  induction l as [|x l IH]; [done|]. destruct l as [|y l].
  - simpl. by rewrite string_app_nil_r.
  - change (String.concat "" (x :: y :: l))
      with (x +:+ String.concat "" (y :: l)).
    by rewrite IH.
Qed.

Lemma join_app (l1 l2 : list fragment) : join (l1 ++ l2) = join l1 +:+ join l2.
Proof.
  unfold join. rewrite !concat_empty_foldr, map_app.
  induction (map selector l1) as [|x t IH]; [done|].
  simpl. by rewrite IH, string_app_assoc.
Qed.

Lemma extend_resets c this xs h r h' :
  extend c this xs h = (Ok r, h') → fragments h' this = Some [].
Proof.
  unfold extend. intros H.
  do 3 (apply bind_returns in H as (? & ? & _ & H)).
  by apply reset_returns in H.
Qed.

Lemma invoke_resets m this v h c h' :
  invoke m this v h = (Ok c, h') → fragments h' this = Some [].
Proof.
  intros H.
  destruct m; simpl in H;
    rewrite ?element_extend, ?id_extend, ?class_extend, ?attr_extend,
      ?pseudoClass_extend, ?pseudoElement_extend in H;
    [do 3 (apply bind_returns in H as (? & ? & _ & H))
    |do 3 (apply bind_returns in H as (? & ? & _ & H))
    |do 2 (apply bind_returns in H as (? & ? & _ & H))..];
    by apply extend_resets in H.
Qed.

(** *** The claims about the builder *)

(** C1, as amended.  Take a chain of fragment-adding calls made on an object
    that holds the fragment list [l], whose calls [pre] respect order and
    uniqueness.  Then [pre] runs without error and returns an object holding
    [l] followed by the fragments of [pre]; and the next call [m(v)], whatever
    follows it in the chain, fails right there with the duplicate error when
    it adds a second element, id or pseudo-element, fails right there with the
    ordering error when it is no duplicate and a kind that comes later in the
    order is present, and otherwise returns an object holding the list
    extended by its fragment. *)
Theorem fragment_call_checked h this l pre m v post :
  fragments h this = Some l →
  respects l pre = true →
  let acc := l ++ map added pre in
  let present := map type acc in
  ∃ b h1,
    chain pre this h = (Ok b, h1) ∧
    fragments h1 b = Some acc ∧
    (duplicate present (kind m) = true →
       (invoke m b v h1).1 = Throw DuplicateError ∧
       (chain (pre ++ (m, v) :: post) this h).1 = Throw DuplicateError) ∧
    (duplicate present (kind m) = false →
     out_of_order present (kind m) = true →
       (invoke m b v h1).1 = Throw OrderError ∧
       (chain (pre ++ (m, v) :: post) this h).1 = Throw OrderError) ∧
    (duplicate present (kind m) = false →
     out_of_order present (kind m) = false →
       ∃ c h2, invoke m b v h1 = (Ok c, h2) ∧
               fragments h2 c = Some (acc ++ [added (m, v)])).
Proof.
  intros Hl Hr acc present. subst present.
  destruct (chain_respects pre h this l Hl Hr) as (b & h1 & Hpre & Hb).
  exists b, h1. split; [done|]. split; [done|].
  assert (Hfail : ∀ e, violation (map type acc) (kind m) = Some e →
            (invoke m b v h1).1 = Throw e ∧
            (chain (pre ++ (m, v) :: post) this h).1 = Throw e).
  { intros e Hv. pose proof (invoke_throws h1 b acc m v e Hb Hv) as Ht.
    split; [done|]. rewrite chain_app, Hpre. simpl.
    unfold mbind, M_bind, bind.
    destruct (invoke m b v h1) as [[c|e'] h2]; simpl in Ht; [discriminate|].
    done. }
  unfold violation in Hfail. split; [|split].
  - intros Hd. apply Hfail. by rewrite Hd.
  - intros Hd Ho. apply Hfail. by rewrite Hd, Ho.
  - intros Hd Ho.
    destruct (invoke_returns h1 b acc m v Hb) as (c & h2 & Hrun & Hc & _).
    { unfold violation. by rewrite Hd, Ho. }
    by exists c, h2.
Qed.

(** C6.  The chain [id('main').class('container').class('editable')
    .stringify()] returns ['#main.container.editable'];
    [combine(element('div'), '+', element('table')).stringify()] returns
    ['div + table']; and in general [combine], called on an object with no
    fragments, gives the texts of the first list, then the combinator between
    two single spaces, then the texts of the second list. *)
Theorem builder_output :
  ((b1 ← id builder "main"; b2 ← class b1 "container";
    b3 ← class b2 "editable"; stringify b3) initial).1
    = Ok "#main.container.editable" ∧
  ((d ← element builder "div"; t ← element builder "table";
    c ← combine builder d "+" t; stringify c) initial).1
    = Ok "div + table" ∧
  ∀ h this selector1 l1 combinator selector2 l2,
    fragments h this = Some [] →
    fragments h selector1 = Some l1 →
    fragments h selector2 = Some l2 →
    ((c ← combine this selector1 combinator selector2; stringify c) h).1
      = Ok (join l1 +:+ " " +:+ combinator +:+ " " +:+ join l2).
Proof.
  split; [by vm_compute|]. split; [by vm_compute|].
  intros h this s1 l1 comb s2 l2 (a & Ho & Ha)%fragments_inv H1 H2.
  rewrite (bind_ok _ _ _ _ _ (combine_run h this a [] s1 l1 comb s2 l2 Ho Ha H1 H2)).
  edestruct stringify_run as (h' & -> & _).
  { apply handed_over_copy. by apply (fresh_differs _ this (Some a)). }
  simpl. f_equal. rewrite join_app. f_equal.
  change (Fragment (" " +:+ comb +:+ " ") TCombinator :: l2)
    with ([Fragment (" " +:+ comb +:+ " ") TCombinator] ++ l2).
  rewrite join_app.
  change (join [Fragment (" " +:+ comb +:+ " ") TCombinator])
    with (" " +:+ comb +:+ " ").
  by rewrite !string_app_assoc.
Qed.

(** C10.  Every operation returns and leaves the receiver with an empty
    fragment list: each fragment-adding method, when its call is in order
    and no duplicate, [combine] of two objects that hold fragment lists, and
    [stringify]; and there is no other way for them to return.  So a second
    [stringify] on the same object returns the empty string; and of two
    methods called one after the other on the same saved object, the second
    returns an object that holds its own fragment only, while the object the
    first call returned keeps the fragments accumulated so far. *)
Theorem operations_reset_receiver h this l :
  fragments h this = Some l →
  (∀ m v, violation (map type l) (kind m) = None →
     ∃ c h', invoke m this v h = (Ok c, h') ∧
             fragments h' c = Some (l ++ [added (m, v)]) ∧
             fragments h' this = Some []) ∧
  (∀ m v c h', invoke m this v h = (Ok c, h') → fragments h' this = Some []) ∧
  (∀ selector1 l1 combinator selector2 l2,
     fragments h selector1 = Some l1 →
     fragments h selector2 = Some l2 →
     ∃ c h', combine this selector1 combinator selector2 h = (Ok c, h') ∧
             c ≠ this ∧
             fragments h' this = Some []) ∧
  (∀ selector1 combinator selector2 c h',
     combine this selector1 combinator selector2 h = (Ok c, h') →
     fragments h' this = Some []) ∧
  (∃ h1 h2, stringify this h = (Ok (join l), h1) ∧
            fragments h1 this = Some [] ∧
            stringify this h1 = (Ok "", h2)) ∧
  (∀ m1 v1 c1 h1 m2 v2,
     invoke m1 this v1 h = (Ok c1, h1) →
     ∃ c2 h2, invoke m2 this v2 h1 = (Ok c2, h2) ∧
              fragments h2 c2 = Some [added (m2, v2)] ∧
              fragments h2 c1 = Some (l ++ [added (m1, v1)])).
Proof.
  intros Hl. split; [|split; [|split; [|split; [|split]]]].
  - intros m v. by apply invoke_returns.
  - intros m v c h'. apply invoke_resets.
  - intros s1 l1 comb s2 l2 H1 H2.
    destruct (fragments_inv _ _ _ Hl) as (a & Ho & Ha).
    rewrite (combine_run h this a l s1 l1 comb s2 l2 Ho Ha H1 H2).
    eexists _, _. split; [done|].
    split; [by apply (fresh_differs _ this (Some a))|].
    apply handed_over_this.
  - intros s1 comb s2 c h'. apply combine_resets.
  - destruct (stringify_run h this l Hl) as (h1 & Hs1 & Hl1).
    destruct (stringify_run h1 this [] Hl1) as (h2 & Hs2 & _).
    by exists h1, h2.
  - intros m1 v1 c1 h1 m2 v2.
    destruct (fragments_inv _ _ _ Hl) as (a & Ho & Ha).
    rewrite (invoke_run h this a l m1 v1 Ho Ha).
    destruct (violation _ _); [discriminate|]. intros [= <- <-].
    set (c1 := fresh (dom (objects h))).
    set (h1 := handed_over _ _ _ _ _).
    assert (Hc1 : c1 ≠ this) by by apply (fresh_differs _ this (Some a)).
    set (e := fresh (dom (<[a := l ++ [added (m1, v1)]]> (arrays h)))).
    assert (Hea : e ≠ a).
    { apply (fresh_differs _ a (l ++ [added (m1, v1)])), lookup_insert_eq. }
    assert (Hoe : objects h1 !! this = Some (Some e)).
    { unfold h1, handed_over. simpl. by rewrite lookup_insert_eq. }
    assert (Hae : arrays h1 !! e = Some []).
    { unfold h1, handed_over. simpl. by rewrite lookup_insert_eq. }
    assert (Hoc : objects h1 !! c1 = Some (Some a)).
    { unfold h1, handed_over. simpl.
      by rewrite lookup_insert_ne, lookup_insert_eq. }
    assert (Hac : arrays h1 !! a = Some (l ++ [added (m1, v1)])).
    { unfold h1, handed_over. simpl.
      by rewrite lookup_insert_ne, lookup_insert_eq. }
    rewrite (invoke_run h1 this e [] m2 v2 Hoe Hae), violation_nil.
    eexists _, _. split; [done|]. split.
    + apply handed_over_copy. by apply (fresh_differs _ this (Some e)).
    + apply (fragments_eq _ _ a).
      * rewrite handed_over_objects.
        -- simpl. rewrite lookup_insert_ne; [done|].
           by apply (fresh_differs _ c1 (Some a)).
        -- done.
        -- apply not_eq_sym. by apply (fresh_differs _ c1 (Some a)).
      * apply handed_over_arrays; [by apply not_eq_sym|done].
Qed.

Lemma fragment_call_checked_witness :
  fragments initial builder = Some [] ∧
  respects [] [(Element, "div"); (Id, "main")] = true ∧
  ∃ b h1,
    chain [(Element, "div"); (Id, "main")] builder initial = (Ok b, h1) ∧
    fragments h1 b = Some [Fragment "div" TElement; Fragment "#main" TId] ∧
    (invoke Id b "other" h1).1 = Throw DuplicateError ∧
    (chain [(Element, "div"); (Id, "main"); (Id, "other"); (Class, "c")]
       builder initial).1 = Throw DuplicateError.
Proof.
  split; [reflexivity|]. split; [reflexivity|].
  destruct (fragment_call_checked initial builder []
              [(Element, "div"); (Id, "main")] Id "other" [(Class, "c")]
              eq_refl eq_refl) as (b & h1 & Hrun & Hb & Hdup & _).
  exists b, h1. split; [exact Hrun|]. split; [exact Hb|].
  apply Hdup. reflexivity.
Defined.

(** C1 as stated fails: after [element('a').id('b')] the call
    [element('c')] is of a kind that comes earlier than the id present, and
    it fails with the duplicate error, not with the ordering error. *)
Lemma ordering_error_preempted_by_duplicate :
  ∃ b h1,
    chain [(Element, "a"); (Id, "b")] builder initial = (Ok b, h1) ∧
    fragments h1 b = Some [Fragment "a" TElement; Fragment "#b" TId] ∧
    earlier (kind Element) TId = true ∧
    (element b "c" h1).1 = Throw DuplicateError ∧
    (element b "c" h1).1 ≠ Throw OrderError.
Proof.
  eexists _, _. split; [by vm_compute|]. split; [by vm_compute|].
  split; [done|]. split; [by vm_compute|]. by vm_compute.
Qed.

Lemma builder_output_witness :
  fragments sample_store 0 = Some [] ∧
  fragments sample_store 1 = Some [Fragment "div" TElement] ∧
  fragments sample_store 2
    = Some [Fragment "table" TElement; Fragment "#data" TId] ∧
  ((c ← combine 0 1 "~" 2; stringify c) sample_store).1
    = Ok "div ~ table#data".
Proof.
  split; [reflexivity|]. split; [reflexivity|]. split; [reflexivity|].
  exact (proj2 (proj2 builder_output) sample_store 0 1 _ "~" 2 _
           eq_refl eq_refl eq_refl).
Defined.

Lemma operations_reset_receiver_witness :
  fragments sample_store 1 = Some [Fragment "div" TElement] ∧
  (∃ c h', id 1 "main" sample_store = (Ok c, h') ∧
           fragments h' c
             = Some [Fragment "div" TElement; Fragment "#main" TId] ∧
           fragments h' 1 = Some []) ∧
  (∃ c h', combine 1 1 "+" 2 sample_store = (Ok c, h') ∧
           c ≠ 1 ∧
           fragments h' 1 = Some []) ∧
  (∃ h1 h2, stringify 1 sample_store = (Ok "div", h1) ∧
            fragments h1 1 = Some [] ∧
            stringify 1 h1 = (Ok "", h2)) ∧
  (∀ c1 h1, id 1 "main" sample_store = (Ok c1, h1) →
     ∃ c2 h2, class 1 "big" h1 = (Ok c2, h2) ∧
              fragments h2 c2 = Some [Fragment ".big" TClass] ∧
              fragments h2 c1
                = Some [Fragment "div" TElement; Fragment "#main" TId]).
Proof.
  split; [reflexivity|].
  destruct (operations_reset_receiver sample_store 1
              [Fragment "div" TElement] eq_refl)
    as (Hr & _ & Hcombine & _ & Hs & Hc).
  split; [exact (Hr Id "main" eq_refl)|].
  split; [exact (Hcombine 1 _ "+" 2 _ eq_refl eq_refl)|].
  split; [exact Hs|].
  intros c1 h1 Hid. exact (Hc Id "main" c1 h1 Class "big" Hid).
Defined.

End builder_store.

(** ** The ticket seller *)

Section tickets.
Import Tickets.
Local Open Scope Z_scope.

(** The loop stops by its own condition within the rounds it is given
    whenever [rest] is [25 * k] for some [k] up to [fuel]: it hands out
    [min k n25] bills. *)
Lemma give25_exact (fuel : nat) : ∀ k n : Z,
  0 ≤ k ≤ Z.of_nat fuel → 0 ≤ n →
  give25 fuel (25 * k) n = (25 * (k - Z.min k n), n - Z.min k n).
Proof.
  induction fuel as [|fuel IH]; intros k n Hk Hn.
  - assert (k = 0) as -> by lia. simpl. f_equal; lia.
  - simpl. destruct (0 <? 25 * k) eqn:Hr; destruct (0 <? n) eqn:Hp; simpl;
      try (apply Z.ltb_ge in Hr); try (apply Z.ltb_ge in Hp);
      try (apply Z.ltb_lt in Hr); try (apply Z.ltb_lt in Hp).
    + replace (25 * k - 25) with (25 * (k - 1)) by lia.
      rewrite IH by lia. f_equal; lia.
    + f_equal; lia.
    + f_equal; lia.
    + f_equal; lia.
Qed.

Local Arguments give25 : simpl never.
Local Arguments Nat.leb : simpl never.

Lemma serve_refines p t bill :
  is_bill bill → agree p t →
  match serve p bill, spec_serve t bill with
  | Some p', Some t' => agree p' t'
  | None, None => True
  | _, _ => False
  end.
Proof.
  intros Hb [H25 H50]. destruct p as [a b c], t as [x y]. simpl in *. subst.
  unfold serve, spec_serve. simpl.
  destruct Hb as [-> | [-> | ->]]; simpl.
  - split; simpl; lia.
  - destruct (1 <=? x)%nat eqn:Hx.
    + apply Nat.leb_le in Hx.
      replace (Z.of_nat x =? 0) with false by (symmetry; apply Z.eqb_neq; lia).
      split; simpl; lia.
    + apply Nat.leb_gt in Hx.
      by replace (Z.of_nat x =? 0) with true by (symmetry; apply Z.eqb_eq; lia).
  - destruct (1 <=? y)%nat eqn:Hy;
      [apply Nat.leb_le in Hy;
       replace (Z.of_nat y =? 0) with false by (symmetry; apply Z.eqb_neq; lia)
      |apply Nat.leb_gt in Hy;
       replace (Z.of_nat y =? 0) with true by (symmetry; apply Z.eqb_eq; lia)];
      simpl; [|rename Hy into Hy0].
    2: { change 75 with (25 * 3). rewrite give25_exact by lia.
      destruct (3 <=? x)%nat eqn:Hx.
      * apply Nat.leb_le in Hx.
        replace (25 * (3 - Z.min 3 (Z.of_nat x)) =? 0) with true
          by (symmetry; apply Z.eqb_eq; lia).
        split; simpl; lia.
      * apply Nat.leb_gt in Hx.
        replace (25 * (3 - Z.min 3 (Z.of_nat x)) =? 0) with false
          by (symmetry; apply Z.eqb_neq; lia).
        done. }
    change (75 - 50) with (25 * 1). rewrite give25_exact by lia.
    destruct (1 <=? x)%nat eqn:Hx.
    + apply Nat.leb_le in Hx.
      replace (25 * (1 - Z.min 1 (Z.of_nat x)) =? 0) with true
        by (symmetry; apply Z.eqb_eq; lia).
      split; simpl; lia.
    + apply Nat.leb_gt in Hx.
      replace (25 * (1 - Z.min 1 (Z.of_nat x)) =? 0) with false
        by (symmetry; apply Z.eqb_neq; lia).
      done.
Qed.

Lemma serve_all_refines queue : ∀ p t,
  Forall is_bill queue → agree p t →
  serve_all queue p = bool_decide (is_Some (spec_till queue t)).
Proof.
  induction queue as [|bill queue IH]; intros p t Hq Hpt; [done|].
  apply Forall_cons in Hq as [Hb Hq].
  pose proof (serve_refines p t bill Hb Hpt) as Hs. simpl.
  destruct (serve p bill) as [p'|], (spec_serve t bill) as [t'|]; try done.
  by apply IH.
Qed.

Lemma spec_till_app pre post t :
  spec_till (pre ++ post) t
  = match spec_till pre t with
    | Some t' => spec_till post t'
    | None => None
    end.
Proof.
  revert t. induction pre as [|b pre IH]; intros t; [done|].
  simpl. destruct (spec_serve t b); [apply IH|done].
Qed.

(** Three rounds are all the loop can use: with more it returns the same,
    and on return its condition is false. *)
Lemma give25_three_rounds (fuel : nat) (k n : Z) :
  0 ≤ k ≤ 3 → 0 ≤ n → (3 ≤ fuel)%nat →
  give25 fuel (25 * k) n = give25 3 (25 * k) n ∧
  (let '(rest, m) := give25 3 (25 * k) n in (0 <? rest) && (0 <? m) = false).
Proof.
  intros Hk Hn Hf. rewrite !give25_exact by lia. split; [done|].
  apply andb_false_iff. rewrite !Z.ltb_ge. lia.
Qed.

(** A 100 is served exactly when bills of the till add up to 75. *)
Lemma change_for_100 (t : till) :
  is_Some (spec_serve t 100) ↔
  ∃ a b : nat, (a ≤ n25 t)%nat ∧ (b ≤ n50 t)%nat ∧
               25 * Z.of_nat a + 50 * Z.of_nat b = 75.
Proof.
  destruct t as [x y]. unfold spec_serve. simpl.
  destruct y as [|y]; destruct x as [|[|[|x]]]; simpl; split;
    try (intros [? ?]; discriminate);
    try (intros (a & b & ? & ? & ?); lia);
    try (intros _; by eexists);
    intros _;
    first [exists 1%nat, 1%nat; lia | exists 3%nat, 0%nat; lia].
Qed.

(** C2.  For a queue of bills of 25, 50 and 100, [sellTickets] returns
    [true] exactly when the till, empty at first, serves every bill in turn
    under the rules: a 25 is taken; a 50 takes one 25 as change; a 100 takes
    75 as change, one 50 and one 25 when a 50 is there, three 25s otherwise.
    A 100 is so served exactly when the till can make 75.  The function
    returns [false] at the first bill that cannot be served, whatever
    follows.  [sellTickets([25,25,50])] is [true] and [sellTickets([25,100])]
    is [false]. *)
Theorem sellTickets_serves_in_order (queue : list Z) :
  Forall is_bill queue →
  (sellTickets queue = true ↔ is_Some (spec_till queue (Till 0 0))) ∧
  (∀ pre bill post t,
     queue = pre ++ bill :: post →
     spec_till pre (Till 0 0) = Some t →
     spec_serve t bill = None →
     sellTickets queue = false) ∧
  (∀ t, is_Some (spec_serve t 100) ↔
        ∃ a b : nat, (a ≤ n25 t)%nat ∧ (b ≤ n50 t)%nat ∧
                     25 * Z.of_nat a + 50 * Z.of_nat b = 75) ∧
  sellTickets [25; 25; 50] = true ∧
  sellTickets [25; 100] = false.
Proof.
  intros Hq.
  assert (Hrun : sellTickets queue
            = bool_decide (is_Some (spec_till queue (Till 0 0)))).
  { apply serve_all_refines; [done|]. by split. }
  split; [|split; [|split; [|done]]].
  - rewrite Hrun. apply bool_decide_eq_true.
  - intros pre bill post t -> Hpre Hbill. rewrite Hrun.
    apply bool_decide_eq_false. rewrite spec_till_app, Hpre. simpl.
    rewrite Hbill. by intros [? ?].
  - apply change_for_100.
Qed.

Lemma sellTickets_serves_in_order_witness :
  Forall is_bill [25; 25; 25; 100; 100] ∧
  sellTickets [25; 25; 25; 100; 100] = false.
Proof.
  assert (Hq : Forall is_bill [25; 25; 25; 100; 100]).
  { repeat constructor; unfold is_bill; lia. }
  split; [exact Hq|].
  exact (proj1 (proj2 (sellTickets_serves_in_order _ Hq))
           [25; 25; 25; 100] 100 [] (Till 0 0) eq_refl eq_refl eq_refl).
Defined.

End tickets.

(** ** Object utilities *)

Section objects.
Import Prototype Objects.

Lemma delete_all_lookup (keys : list string) : ∀ (m : gmap string value) k,
  foldl (λ m key, delete key m) m keys !! k
  = if bool_decide (k ∈ keys) then None else m !! k.
Proof.
  induction keys as [|key keys IH]; intros m k; simpl; [done|].
  rewrite IH. destruct (decide (k = key)) as [->|Hne].
  - rewrite lookup_delete_eq.
    rewrite (bool_decide_eq_true_2 (key ∈ key :: keys)) by left.
    by case_bool_decide.
  - rewrite lookup_delete_ne by done.
    apply (f_equal (λ b : bool, if b then None else m !! k)).
    apply bool_decide_ext. rewrite elem_of_cons. intuition congruence.
Qed.

Lemma removeProperties_run (keys : list string) :
  ∀ (h : gmap nat object) obj m,
  h !! obj = Some (Object m false) →
  removeProperties h obj keys
  = (<[obj := Object (foldl (λ m key, delete key m) m keys) false]> h, obj).
Proof.
  unfold removeProperties.
  induction keys as [|key keys IH]; intros h obj m Hobj; simpl.
  - by rewrite insert_id.
  - specialize (IH (alter (λ o, (delete_property NonStrict key o).2) obj h)
                  obj (delete key m)).
    rewrite lookup_alter_eq, Hobj in IH. specialize (IH eq_refl).
    injection IH as ->. f_equal.
    apply map_eq. intros i. destruct (decide (i = obj)) as [->|Hne].
    + by rewrite !lookup_insert_eq.
    + by rewrite !lookup_insert_ne, lookup_alter_ne.
Qed.

Lemma removeProperties_frozen (keys : list string) :
  ∀ (h : gmap nat object) obj m,
  h !! obj = Some (Object m true) →
  removeProperties h obj keys = (h, obj).
Proof.
  unfold removeProperties.
  induction keys as [|key keys IH]; intros h obj m Hobj; simpl; [done|].
  assert (alter (λ o, (delete_property NonStrict key o).2) obj h = h) as ->.
  { apply map_eq. intros i. destruct (decide (i = obj)) as [->|Hne].
    - rewrite lookup_alter_eq, Hobj. simpl. unfold delete_property. simpl.
      by destruct (m !! key).
    - by rewrite lookup_alter_ne. }
  by apply (IH h obj m).
Qed.

(** C3, as amended.  For an object that is not frozen, [removeProperties]
    returns the reference it was given, and the object behind it has lost
    the listed keys and kept every other property: the input object itself
    is changed, no copy is made.  Keys that are absent change nothing, and
    [removeProperties({a:1,b:2,c:3}, ['b','c'])] is [{a:1}]. *)
Theorem removeProperties_in_place (h : gmap nat object) obj m keys :
  h !! obj = Some (Object m false) →
  ∃ m',
    removeProperties h obj keys = (<[obj := Object m' false]> h, obj) ∧
    (∀ k, m' !! k = if bool_decide (k ∈ keys) then None else m !! k) ∧
    ((∀ k, k ∈ keys → m !! k = None) → removeProperties h obj keys = (h, obj)) ∧
    removeProperties abc_store 0 ["b"; "c"]
      = ({[ 0 := Object {[ "a" := VNum 1 ]} false ]}, 0).
Proof.
  intros Hobj. exists (foldl (λ m key, delete key m) m keys).
  split; [by apply removeProperties_run|].
  split; [apply delete_all_lookup|]. split; [|by vm_compute].
  intros Habsent. rewrite (removeProperties_run keys h obj m Hobj). f_equal.
  apply insert_id. rewrite Hobj. do 2 f_equal. apply map_eq. intros k.
  rewrite delete_all_lookup. case_bool_decide; [|done].
  by rewrite Habsent.
Qed.

Lemma removeProperties_in_place_witness :
  abc_store !! 0 = Some (Object abc false) ∧
  ∃ m', removeProperties abc_store 0 ["c"; "d"]
          = (<[0 := Object m' false]> abc_store, 0) ∧
        m' !! "c" = None ∧ m' !! "a" = Some (VNum 1).
Proof.
  split; [reflexivity|].
  destruct (removeProperties_in_place abc_store 0 abc ["c"; "d"] eq_refl)
    as (m' & Hrun & Hlook & _).
  exists m'. split; [exact Hrun|]. split.
  - exact (Hlook "c").
  - exact (Hlook "a").
Defined.

(** C3 as stated fails: the call changes the object it is given. *)
Lemma removeProperties_changes_input :
  (removeProperties abc_store 0 ["b"; "c"]).1 !! 0 ≠ abc_store !! 0.
Proof.
  intros E.
  apply (f_equal (λ x : option object, o ← x; props o !! "b")) in E.
  vm_compute in E. discriminate.
Qed.




(** *** [compareObjects] *)

Lemma keys_length (m : gmap string value) : length (keys m) = size m.
Proof. unfold keys. by rewrite length_fmap, length_map_to_list. Qed.

Lemma elem_of_keys (m : gmap string value) k : k ∈ keys m ↔ is_Some (m !! k).
Proof.
  unfold keys. rewrite list_elem_of_fmap. split.
  - intros ([k' v] & -> & Hin). apply elem_of_map_to_list in Hin. by exists v.
  - intros [v Hv]. exists (k, v). split; [done|]. by apply elem_of_map_to_list.
Qed.

Lemma strict_equal_true (v w : value) :
  strict_equal v w = true ↔ v = w ∧ v ≠ VNaN.
Proof.
  unfold strict_equal. destruct v; rewrite ?bool_decide_eq_true;
    split; try done; try (intros ?; by split); try (by intros [? ?]).
Qed.

(** The result is [true] exactly when the sizes agree and the second object
    answers every key of the first with the same value, which is not
    [NaN]. *)
Lemma compareObjects_true (a b : gmap string value) :
  compareObjects a b = true ↔
  size a = size b ∧ ∀ k v, a !! k = Some v → get b k = v ∧ v ≠ VNaN.
Proof.
  unfold compareObjects. rewrite !keys_length. split.
  - destruct (Nat.eqb_spec (size a) (size b)) as [Hs|Hs]; [|done]. simpl.
    rewrite forallb_forall. intros Hall. split; [done|]. intros k v Hk.
    specialize (Hall k). unfold get in Hall. rewrite Hk in Hall.
    simpl in Hall. rewrite strict_equal_true in Hall.
    destruct Hall as [Heq Hv]; [|by split].
    apply list_elem_of_In, elem_of_keys. by exists v.
  - intros [Hs Hall]. rewrite Hs, Nat.eqb_refl. simpl.
    apply forallb_forall. intros k Hk.
    apply list_elem_of_In, elem_of_keys in Hk as [v Hv].
    apply strict_equal_true. destruct (Hall k v Hv) as [Hb Hn].
    rewrite Hb. unfold get. by rewrite Hv.
Qed.

(** The comparison is reflexive on objects that hold no [NaN]. *)
Lemma compareObjects_refl (o : gmap string value) :
  (∀ k, o !! k ≠ Some VNaN) → compareObjects o o = true.
Proof.
  intros Hn. apply compareObjects_true. split; [done|]. intros k v Hk.
  unfold get. rewrite Hk. split; [done|]. intros ->. by apply (Hn k).
Qed.

Lemma compareObjects_sizes_differ (a b : gmap string value) :
  size (dom a) ≠ size (dom b) → compareObjects a b = false.
Proof.
  rewrite !size_dom. intros Hs. apply not_true_is_false.
  intros [Hs' _]%compareObjects_true. done.
Qed.

(** Where the first object is plain, the result is [true] exactly for equal
    objects. *)
Lemma compareObjects_plain (a b : gmap string value) :
  plain a → compareObjects a b = true ↔ a = b.
Proof.
  intros Hplain. split.
  - intros [Hs Hall]%compareObjects_true.
    apply map_subseteq_size_eq; [|lia].
    apply map_subseteq_spec. intros k v Hk.
    destruct (Hall k v Hk) as [Hb _]. unfold get in Hb.
    destruct (b !! k) as [w|]; [by subst|].
    destruct (Hplain k) as (Hu & _ & Hm).
    destruct (inherited k) as [member|]; subst; [by destruct (Hm member)|done].
  - intros <-. apply compareObjects_refl. intros k. apply Hplain.
Qed.

(** Without that condition the comparison takes what the second object
    inherits for a property of its own: [{constructor: Object}] compares
    equal to [{a: 1}]. *)
Lemma compareObjects_inherited :
  compareObjects with_constructor with_a = true ∧ with_constructor ≠ with_a.
Proof.
  split; [by vm_compute|]. intros Heq.
  apply (f_equal (λ m : gmap string value, m !! "a")) in Heq.
  vm_compute in Heq. discriminate.
Qed.

(** So the comparison is symmetric on plain objects. *)
Lemma compareObjects_sym_plain (a b : gmap string value) :
  plain a → plain b → compareObjects a b = compareObjects b a.
Proof.
  intros Ha Hb. apply eq_true_iff_eq.
  rewrite (compareObjects_plain a b Ha), (compareObjects_plain b a Hb).
  split; by intros ->.
Qed.

(** C4.  [compareObjects] answers [false] when the numbers of keys differ,
    but it is not symmetric: a property that holds [undefined] in the first
    object is matched by a key that the second object lacks.  So
    [{x: undefined, y: 1}] compares equal to [{y: 1, z: 2}], and not the
    other way round. *)
Theorem compareObjects_not_symmetric :
  compareObjects xy yz = true ∧ compareObjects yz xy = false.
Proof. split; by vm_compute. Qed.

(** Nor is it reflexive on an object that holds [NaN]. *)
Lemma compareObjects_not_reflexive :
  compareObjects {[ "a" := VNaN ]} {[ "a" := VNaN ]} = false.
Proof. by vm_compute. Qed.

End objects.

(** ** Order of first appearance *)

Section first_appearance.
Context {A : Type} `{EqDecision A}.

Lemma filter_twice (P Q R : A → Prop) `{∀ x, Decision (P x)}
    `{∀ x, Decision (Q x)} `{∀ x, Decision (R x)} (l : list A) :
  (∀ x, R x ↔ P x ∧ Q x) →
  filter P (filter Q l) = filter R l.
Proof.
  intros HR. induction l as [|x l IH]; [done|].
  rewrite (filter_cons Q), (filter_cons R).
  destruct (decide (Q x)) as [HQ|HQ]; destruct (decide (R x)) as [Hx|Hx].
  - rewrite filter_cons, decide_True by by apply HR. by rewrite IH.
  - rewrite filter_cons, decide_False; [done|]. intros HP. apply Hx, HR. done.
  - destruct HQ. by apply HR.
  - done.
Qed.

Lemma filter_none (P : A → Prop) `{∀ x, Decision (P x)} (l : list A) :
  Forall (λ x, ¬ P x) l → filter P l = [].
Proof.
  induction 1 as [|x l Hx _ IH]; [done|].
  by rewrite filter_cons, decide_False.
Qed.

Lemma filter_all (P : A → Prop) `{∀ x, Decision (P x)} (l : list A) :
  Forall P l → filter P l = l.
Proof.
  induction 1 as [|x l Hx _ IH]; [done|].
  by rewrite filter_cons, decide_True, IH.
Qed.

Lemma foldl_see (l : list A) : ∀ acc,
  foldl see acc l = acc ++ filter (λ x, x ∉ acc) (first_seen l).
Proof.
  induction l as [|x l IH]; intros acc; simpl.
  - by rewrite app_nil_r.
  - rewrite IH. unfold see. rewrite filter_cons.
    destruct (decide (x ∈ acc)) as [Hin|Hin].
    + rewrite decide_False by (intros Hn; by apply Hn). f_equal.
      symmetry. apply filter_twice. intros y. split; [|tauto].
      intros Hy. split; [done|]. by intros ->.
    + rewrite decide_True by done. rewrite <- app_assoc. simpl.
      do 2 f_equal. symmetry. apply filter_twice. intros y.
      rewrite elem_of_app, list_elem_of_singleton. tauto.
Qed.

Lemma foldl_see_first_seen (l : list A) : foldl see [] l = first_seen l.
Proof.
  rewrite foldl_see. simpl. induction (first_seen l) as [|x t IH]; [done|].
  rewrite filter_cons, decide_True by by intros ?%elem_of_nil. by rewrite IH.
Qed.



End first_appearance.

(** ** Grouping *)

Section maps.
Import Grouping.
Context {K : Type} `{EqDecision K}.






End maps.

Section grouping.
Import Objects Grouping.
Context {E V : Type}.




End grouping.

(** The example of the documentation. *)
Example group_cities :
  Grouping.group Grouping.cities (λ item, Objects.VStr item.1) snd
  = [(Objects.VStr "Belarus", ["Brest"; "Grodno"; "Minsk"]);
     (Objects.VStr "Russia", ["Omsk"; "Samara"]);
     (Objects.VStr "Poland", ["Lodz"])].
Proof. reflexivity. Qed.



(** ** Sorting cities *)

Section cities.
Import Cities.
Local Open Scope Z_scope.

(** *** Sorting by insertion is one of the sorts *)





(** *** The comparison function and the order by initials *)












End cities.

(** ** Numbers *)

Section numbers.
Import Numbers.
Local Open Scope Z_scope.

(** Below [2^53] in magnitude every integer is a double: nothing is
    rounded. *)
Lemma round_safe (z : Z) : Z.abs z < 2 ^ 53 → round z = Finite z.
Proof.
  intros Hz. unfold round.
  destruct (Z.ltb_spec (Z.abs z) (2 ^ 53)); [done|lia].
Qed.

Lemma add_safe (a b : Z) :
  Z.abs (a + b) < 2 ^ 53 → add (Finite a) (Finite b) = Finite (a + b).
Proof. apply round_safe. Qed.

Lemma multiply_safe (a b : Z) :
  Z.abs (a * b) < 2 ^ 53 → multiply (Finite a) (Finite b) = Finite (a * b).
Proof. apply round_safe. Qed.

End numbers.

(** ** Objects as lists of properties *)

Section property_lists.
Import Merge.
Context {V : Type}.
Implicit Types (o : list (string * V)) (v : V).

Lemma obj_get_None (key : string) o : obj_get key o = None ↔ key ∉ o.*1.
Proof.
  induction o as [|[k v] o IH]; csimpl.
  - split; [intros _ ?%elem_of_nil|]; done.
  - rewrite elem_of_cons. destruct (decide (k = key)) as [->|Hne].
    + split; [done|]. intros Hn. destruct Hn. by left.
    + rewrite IH. split; [intros Hn [->|?]; done|tauto].
Qed.

Lemma obj_get_replace (key k : string) v o :
  is_Some (obj_get k o) →
  obj_get key (replace_value k v o)
  = if decide (key = k) then Some v else obj_get key o.
Proof.
  induction o as [|[k' w] o IH]; simpl; [by intros [? ?]|].
  destruct (decide (k' = k)) as [->|Hne]; simpl.
  - intros _. destruct (decide (k = key)) as [->|Hne].
    + by rewrite decide_True.
    + by rewrite decide_False by (intros ->; done).
  - intros Hk. rewrite (IH Hk).
    destruct (decide (k' = key)) as [->|Hne']; [|done].
    by rewrite decide_False by (intros ->; done).
Qed.

Lemma obj_get_add (key k : string) v o :
  obj_get k o = None →
  obj_get key (add_property k v o)
  = if decide (key = k) then Some v else obj_get key o.
Proof.
  induction o as [|[k' w] o IH]; simpl.
  - intros _. destruct (decide (k = key)) as [->|Hne].
    + by rewrite decide_True.
    + by rewrite decide_False by (intros ->; done).
  - destruct (decide (k' = k)) as [->|Hne]; [done|]. intros Hk.
    destruct (goes_before k k'); simpl.
    + destruct (decide (k = key)) as [->|Hne'].
      * by rewrite decide_True.
      * by rewrite (decide_False (P := key = k)) by (intros ->; done).
    + rewrite (IH Hk). destruct (decide (k' = key)) as [->|Hne']; [|done].
      by rewrite decide_False by (intros ->; done).
Qed.

Lemma obj_get_set (key k : string) v o :
  obj_get key (set_property k v o)
  = if decide (key = k) then Some v else obj_get key o.
Proof.
  unfold set_property. destruct (obj_get k o) as [w|] eqn:Hk.
  - apply obj_get_replace. by rewrite Hk.
  - by apply obj_get_add.
Qed.

Lemma keys_replace (k : string) v o : (replace_value k v o).*1 = o.*1.
Proof.
  induction o as [|[k' w] o IH]; csimpl; [done|].
  destruct (decide (k' = k)); csimpl; [done|]. by rewrite IH.
Qed.

Lemma keys_add_perm (k : string) v o : (add_property k v o).*1 ≡ₚ k :: o.*1.
Proof.
  induction o as [|[k' w] o IH]; csimpl; [done|].
  destruct (goes_before k k'); csimpl; [done|].
  rewrite IH. apply Permutation_swap.
Qed.

Lemma keys_add_plain (k : string) v o :
  ¬ is_index k → (add_property k v o).*1 = o.*1 ++ [k].
Proof.
  intros Hk. assert (Hb : ∀ k', goes_before k k' = false).
  { intros k'. unfold goes_before. destruct (array_index k) eqn:E; [|done].
    destruct Hk. unfold is_index. by rewrite E. }
  induction o as [|[k' w] o IH]; csimpl; [done|].
  rewrite Hb. csimpl. by rewrite IH.
Qed.

Lemma plain_keys_add_index (k : string) v o :
  is_index k →
  filter (λ k, ¬ is_index k) (add_property k v o).*1
  = filter (λ k, ¬ is_index k) o.*1.
Proof.
  intros Hk. induction o as [|[k' w] o IH]; csimpl.
  - rewrite filter_cons, decide_False; [done|]. tauto.
  - destruct (goes_before k k'); csimpl.
    + rewrite (filter_cons _ k), decide_False; [done|]. tauto.
    + by rewrite !(filter_cons _ k'), IH.
Qed.

Lemma plain_keys_set (k : string) v o :
  filter (λ k, ¬ is_index k) (set_property k v o).*1
  = if decide (is_index k) then filter (λ k, ¬ is_index k) o.*1
    else see (filter (λ k, ¬ is_index k) o.*1) k.
Proof.
  unfold set_property, see. destruct (obj_get k o) as [w|] eqn:Hk.
  - rewrite keys_replace. destruct (decide (is_index k)) as [Hi|Hi]; [done|].
    rewrite decide_True; [done|]. apply list_elem_of_filter. split; [done|].
    destruct (decide (k ∈ o.*1)) as [Hin|Hin]; [done|].
    apply obj_get_None in Hin. by rewrite Hin in Hk.
  - destruct (decide (is_index k)) as [Hi|Hi].
    + by apply plain_keys_add_index.
    + rewrite keys_add_plain, filter_app by done.
      rewrite (filter_cons _ k []), decide_True by done.
      rewrite decide_False; [done|].
      rewrite list_elem_of_filter. intros [_ Hin].
      by apply obj_get_None in Hk.
Qed.

Lemma NoDup_keys_set (k : string) v o :
  NoDup o.*1 → NoDup (set_property k v o).*1.
Proof.
  intros Hnd. unfold set_property. destruct (obj_get k o) eqn:Hk.
  - by rewrite keys_replace.
  - rewrite keys_add_perm. constructor; [|done]. by apply obj_get_None.
Qed.

(** *** The order of enumeration *)

Lemma enumerated_before_trans (a b c : string) :
  enumerated_before a b → enumerated_before b c → enumerated_before a c.
Proof.
  unfold enumerated_before.
  destruct (array_index a), (array_index b), (array_index c); try done. lia.
Qed.

Lemma goes_before_enumerated (k k' : string) :
  if goes_before k k' then enumerated_before k k' else enumerated_before k' k.
Proof.
  unfold goes_before, enumerated_before.
  destruct (array_index k) as [i|], (array_index k') as [j|]; try done.
  destruct (N.ltb_spec i j); lia.
Qed.

Lemma add_property_enumerated (k : string) v o :
  StronglySorted enumerated_before o.*1 →
  StronglySorted enumerated_before (add_property k v o).*1.
Proof.
  induction o as [|[k' w] o IH]; csimpl.
  - intros _. repeat constructor.
  - intros [Hs Hall]%StronglySorted_inv.
    pose proof (goes_before_enumerated k k') as Hb.
    destruct (goes_before k k'); csimpl.
    + constructor; [by constructor|]. constructor; [done|].
      eapply Forall_impl; [exact Hall|]. intros z.
      by apply enumerated_before_trans.
    + constructor; [by apply IH|]. rewrite keys_add_perm. by constructor.
Qed.

Lemma set_property_enumerated (k : string) v o :
  StronglySorted enumerated_before o.*1 →
  StronglySorted enumerated_before (set_property k v o).*1.
Proof.
  intros Hs. unfold set_property. destruct (obj_get k o).
  - by rewrite keys_replace.
  - by apply add_property_enumerated.
Qed.

(** A list of keys in the order of enumeration is its array indices, in
    ascending order, followed by its other keys. *)
Lemma enumerated_split (ks : list string) :
  StronglySorted enumerated_before ks →
  ks = filter is_index ks ++ filter (λ k, ¬ is_index k) ks ∧
  StronglySorted index_le (filter is_index ks).
Proof.
  induction 1 as [|k ks Hs [IHeq IHs] Hall]; [by split; [|constructor]|].
  rewrite !filter_cons. destruct (decide (is_index k)) as [Hi|Hi].
  - rewrite decide_False by tauto. split; [simpl; by rewrite <- IHeq|].
    constructor; [done|]. apply Forall_forall. intros k' Hk'.
    apply list_elem_of_filter in Hk' as [[j Hj] Hin].
    rewrite Forall_forall in Hall. specialize (Hall k' Hin).
    destruct Hi as [i Hi]. unfold enumerated_before, index_le in *.
    by rewrite Hi, Hj in *.
  - rewrite decide_True by done.
    assert (Hplain : Forall (λ k', ¬ is_index k') ks).
    { eapply Forall_impl; [exact Hall|]. intros k' Hb [j Hj].
      unfold enumerated_before in Hb. rewrite Hj in Hb.
      destruct (array_index k) eqn:E; [|done]. apply Hi. by eexists. }
    rewrite (filter_none is_index), (filter_all (λ k, ¬ is_index k)) by done.
    split; [done|constructor].
Qed.

(** A key that every key of the object is enumerated before goes to the
    end. *)
Lemma add_property_end (k : string) v o :
  (∀ k', k' ∈ o.*1 → enumerated_before k' k) →
  add_property k v o = o ++ [(k, v)].
Proof.
  induction o as [|[k1 w] o IH]; intros Hall; [done|]. simpl.
  assert (Hb : goes_before k k1 = false).
  { specialize (Hall k1). unfold enumerated_before, goes_before in *.
    destruct (array_index k) as [i|], (array_index k1) as [j|]; try done.
    - apply N.ltb_ge. apply Hall. csimpl. left.
    - destruct Hall. csimpl. left. }
  rewrite Hb, IH; [done|]. intros k' Hk'. apply Hall. csimpl. by right.
Qed.

(** *** The same object with other values *)

Context {W : Type} (f : V → W).

Lemma keys_with_values o : (prod_map id f <$> o).*1 = o.*1.
Proof. induction o as [|[k v] o IH]; csimpl; [done|]. by rewrite IH. Qed.

Lemma obj_get_with_values (key : string) o :
  obj_get key (prod_map id f <$> o) = f <$> obj_get key o.
Proof.
  induction o as [|[k v] o IH]; csimpl; [done|].
  by destruct (decide (k = key)).
Qed.

Lemma replace_value_with_values (key : string) v o :
  replace_value key (f v) (prod_map id f <$> o)
  = prod_map id f <$> replace_value key v o.
Proof.
  induction o as [|[k w] o IH]; csimpl; [done|].
  destruct (decide (k = key)); csimpl; [done|]. by rewrite IH.
Qed.

Lemma add_property_with_values (key : string) v o :
  add_property key (f v) (prod_map id f <$> o)
  = prod_map id f <$> add_property key v o.
Proof.
  induction o as [|[k w] o IH]; csimpl; [done|].
  destruct (goes_before key k); csimpl; [done|]. by rewrite IH.
Qed.

Lemma set_property_with_values (key : string) v o :
  set_property key (f v) (prod_map id f <$> o)
  = prod_map id f <$> set_property key v o.
Proof.
  unfold set_property. rewrite obj_get_with_values.
  destruct (obj_get key o); simpl.
  - apply replace_value_with_values.
  - apply add_property_with_values.
Qed.

End property_lists.

(** ** Merging objects *)

Section merge.
Import Prototype Numbers Merge.
Local Open Scope Z_scope.
Local Arguments merge_entry : simpl never.
Local Arguments sum_entry : simpl never.
Local Arguments add : simpl never.

(** *** The merge with sums in the integers *)

Lemma obj_get_sum_entry (key k : string) (v : Z) (o : list (string * Z)) :
  obj_get key (sum_entry o (k, v))
  = if decide (key = k) then Some (default 0 (obj_get k o) + v)
    else obj_get key o.
Proof. apply obj_get_set. Qed.

Lemma total_cons (key k : string) (v : Z) (all : list (string * Z)) :
  total key ((k, v) :: all)
  = if decide (key = k) then v + total key all else total key all.
Proof.
  unfold total. rewrite filter_cons. simpl.
  destruct (decide (k = key)) as [->|Hne].
  - by rewrite decide_True.
  - by rewrite decide_False by (intros ->; done).
Qed.

Lemma total_absent (key : string) (all : list (string * Z)) :
  key ∉ all.*1 → total key all = 0.
Proof.
  induction all as [|[k v] all IH]; csimpl; [done|].
  rewrite not_elem_of_cons, total_cons. intros [Hne Hin].
  rewrite decide_False by done. by apply IH.
Qed.

Lemma obj_get_foldl_sum (key : string) (entries : list (string * Z)) :
  ∀ o,
  obj_get key (foldl sum_entry o entries)
  = if decide (key ∈ entries.*1)
    then Some (default 0 (obj_get key o) + total key entries)
    else obj_get key o.
Proof.
  induction entries as [|[k v] entries IH]; intros o; csimpl; [done|].
  rewrite IH, obj_get_sum_entry, total_cons.
  destruct (decide (key = k)) as [->|Hne].
  - rewrite (decide_True (P := k ∈ k :: entries.*1)) by left.
    destruct (decide (k ∈ entries.*1)) as [Hin|Hin]; simpl; f_equal; [lia|].
    rewrite total_absent by done. lia.
  - destruct (decide (key ∈ entries.*1)) as [Hin|Hin].
    + by rewrite decide_True by by right.
    + rewrite decide_False; [done|]. rewrite elem_of_cons. tauto.
Qed.

Lemma plain_keys_foldl_sum (entries : list (string * Z)) : ∀ o,
  filter (λ k, ¬ is_index k) (foldl sum_entry o entries).*1
  = foldl see (filter (λ k, ¬ is_index k) o.*1)
      (filter (λ k, ¬ is_index k) entries.*1).
Proof.
  induction entries as [|[k v] entries IH]; intros o; csimpl; [done|].
  rewrite IH, filter_cons. unfold sum_entry. rewrite plain_keys_set.
  destruct (decide (is_index k)) as [Hi|Hi].
  - rewrite decide_False; [done|]. tauto.
  - by rewrite decide_True.
Qed.

Lemma NoDup_keys_foldl_sum (entries : list (string * Z)) : ∀ o,
  NoDup o.*1 → NoDup (foldl sum_entry o entries).*1.
Proof.
  induction entries as [|[k v] entries IH]; intros o Hnd; csimpl; [done|].
  apply IH. by apply NoDup_keys_set.
Qed.

Lemma foldl_sum_enumerated (entries : list (string * Z)) : ∀ o,
  StronglySorted enumerated_before o.*1 →
  StronglySorted enumerated_before (foldl sum_entry o entries).*1.
Proof.
  induction entries as [|[k v] entries IH]; intros o Hs; csimpl; [done|].
  apply IH. by apply set_property_enumerated.
Qed.

(** *** Magnitudes *)

Lemma magnitude_cons (key k : string) (v : Z) (all : list (string * Z)) :
  magnitude key ((k, v) :: all)
  = if decide (key = k) then Z.abs v + magnitude key all
    else magnitude key all.
Proof.
  unfold magnitude. rewrite filter_cons. simpl.
  destruct (decide (k = key)) as [->|Hne].
  - by rewrite decide_True.
  - by rewrite decide_False by (intros ->; done).
Qed.

Lemma magnitude_nonneg (key : string) (all : list (string * Z)) :
  0 ≤ magnitude key all.
Proof.
  induction all as [|[k v] all IH]; [done|].
  rewrite magnitude_cons. destruct (decide (key = k)); lia.
Qed.

Lemma magnitude_absent (key : string) (all : list (string * Z)) :
  key ∉ all.*1 → magnitude key all = 0.
Proof.
  induction all as [|[k v] all IH]; csimpl; [done|].
  rewrite not_elem_of_cons, magnitude_cons. intros [Hne Hin].
  rewrite decide_False by done. by apply IH.
Qed.

(** *** The code takes the sums of the integers, where they are safe *)

Lemma get_holding (key : string) (acc : list (string * Z)) :
  inherited key = None →
  get key (holding acc) = (λ z, Num (Finite z)) <$> obj_get key acc.
Proof.
  intros Hkey. unfold get, holding. rewrite obj_get_with_values, Hkey.
  by destruct (obj_get key acc).
Qed.

Lemma not_proto (key : string) : inherited key = None → key ≠ "__proto__".
Proof. by intros Hkey ->. Qed.

Lemma merge_entry_exact (acc : list (string * Z)) (k : string) (v : Z) :
  inherited k = None →
  Z.abs (default 0 (obj_get k acc) + v) < 2 ^ 53 →
  merge_entry (holding acc) (k, Finite v) = holding (sum_entry acc (k, v)).
Proof.
  intros Hk Hsafe. unfold merge_entry, sum_entry, assign.
  rewrite (get_holding k acc Hk), !decide_False by by apply not_proto.
  unfold holding. rewrite <- set_property_with_values.
  destruct (obj_get k acc) as [z|]; cbn [default id] in Hsafe; simpl; [|done].
  destruct (Z.eqb_spec z 0) as [->|Hz]; simpl; [done|].
  by rewrite add_safe.
Qed.

Lemma foldl_merge_exact (entries : list (string * Z)) : ∀ acc,
  Forall (λ k, inherited k = None) entries.*1 →
  (∀ key,
     Z.abs (default 0 (obj_get key acc)) + magnitude key entries < 2 ^ 53) →
  foldl merge_entry (holding acc) (numbers entries)
  = holding (foldl sum_entry acc entries).
Proof.
  induction entries as [|[k v] entries IH]; intros acc Hkeys Hsafe; [done|].
  csimpl in Hkeys. apply Forall_cons in Hkeys as [Hk Hkeys]. csimpl.
  assert (Hstep : Z.abs (default 0 (obj_get k acc) + v) < 2 ^ 53).
  { specialize (Hsafe k). rewrite magnitude_cons, decide_True in Hsafe by done.
    pose proof (magnitude_nonneg k entries). lia. }
  rewrite (merge_entry_exact acc k v Hk Hstep). apply IH; [done|].
  intros key. specialize (Hsafe key).
  rewrite magnitude_cons in Hsafe. rewrite obj_get_sum_entry.
  destruct (decide (key = k)) as [->|Hne]; simpl; lia.
Qed.

Lemma mergeObjects_concat (objects : list (list (string * number))) :
  mergeObjects objects = foldl merge_entry [] (concat objects).
Proof.
  unfold mergeObjects. generalize (@nil (string * value)).
  induction objects as [|obj objects IH]; intros o; simpl; [done|].
  by rewrite IH, foldl_app.
Qed.

Lemma concat_numbers (objects : list (list (string * Z))) :
  concat (map numbers objects) = numbers (concat objects).
Proof.
  induction objects as [|o objects IH]; [done|]. simpl.
  unfold numbers in *. by rewrite IH, fmap_app.
Qed.

(** No key of the objects names a member of [Object.prototype], and for
    every key the magnitudes of its values add up to less than [2^53]. *)
Lemma mergeObjects_exact (objects : list (list (string * Z))) :
  Forall (λ k, inherited k = None) (concat objects).*1 →
  Forall (λ k, magnitude k (concat objects) < 2 ^ 53) (concat objects).*1 →
  mergeObjects (map numbers objects)
  = holding (foldl sum_entry [] (concat objects)).
Proof.
  intros Hkeys Hsafe. rewrite mergeObjects_concat, concat_numbers.
  apply (foldl_merge_exact _ []); [done|]. intros key. simpl.
  destruct (decide (key ∈ (concat objects).*1)) as [Hin|Hin].
  - rewrite Forall_forall in Hsafe. by apply Hsafe.
  - by rewrite magnitude_absent.
Qed.

(** *** Permuted inputs *)

Lemma concat_perm {A} (ls ls' : list (list A)) :
  ls ≡ₚ ls' → concat ls ≡ₚ concat ls'.
Proof.
  induction 1 as [|l ls ls' _ IH|l1 l2 ls|ls1 ls2 ls3 _ IH1 _ IH2]; simpl.
  - done.
  - by rewrite IH.
  - rewrite !app_assoc. f_equiv. apply Permutation_app_comm.
  - by rewrite IH1.
Qed.

Lemma sum_perm (l l' : list Z) :
  l ≡ₚ l' → foldr Z.add 0 l = foldr Z.add 0 l'.
Proof.
  induction 1 as [|x l l' _ IH|x y l|l1 l2 l3 _ IH1 _ IH2]; simpl; lia.
Qed.

Lemma total_perm (key : string) (all all' : list (string * Z)) :
  all ≡ₚ all' → total key all = total key all'.
Proof. intros Hp. unfold total. apply sum_perm. by rewrite Hp. Qed.

Lemma magnitude_perm (key : string) (all all' : list (string * Z)) :
  all ≡ₚ all' → magnitude key all = magnitude key all'.
Proof. intros Hp. unfold magnitude. apply sum_perm. by rewrite Hp. Qed.

(** *** The merged object *)

Lemma sums_get (all : list (string * Z)) (key : string) :
  obj_get key (holding (foldl sum_entry [] all))
  = if decide (key ∈ all.*1) then Some (Num (Finite (total key all)))
    else None.
Proof.
  unfold holding. rewrite obj_get_with_values, obj_get_foldl_sum.
  by destruct (decide _).
Qed.

Lemma sums_keys (all : list (string * Z)) :
  let merged := holding (foldl sum_entry [] all) in
  NoDup merged.*1 ∧
  merged.*1 = filter is_index merged.*1
              ++ first_seen (filter (λ k, ¬ is_index k) all.*1) ∧
  StronglySorted index_le (filter is_index merged.*1).
Proof.
  intros merged. unfold merged, holding. rewrite keys_with_values.
  assert (Hsorted : StronglySorted enumerated_before
                      (foldl sum_entry [] all).*1).
  { apply foldl_sum_enumerated. constructor. }
  destruct (enumerated_split _ Hsorted) as [Hsplit Hidx].
  split; [apply NoDup_keys_foldl_sum; constructor|].
  split; [|done]. rewrite Hsplit at 1. f_equal.
  rewrite plain_keys_foldl_sum. apply foldl_see_first_seen.
Qed.

(** C5, as amended.  The objects hold integers, no key of theirs names a
    member of [Object.prototype], and for every key the magnitudes of its
    values add up to less than [2^53], so that no sum is rounded in whatever
    order it is taken.  Then [mergeObjects] gives one entry for every
    distinct key of the inputs, its value the sum of the values the inputs
    give for that key.  The keys that are array indices are enumerated
    first, in ascending order; the other keys follow in the order in which
    they were first seen.  The keys and the sums do not depend on the order
    of the input list.  [mergeObjects([{a:1,b:2},{b:3,c:5}])] is
    [{a:1,b:5,c:5}] and [mergeObjects([])] is [{}]. *)
Theorem mergeObjects_sums (objects : list (list (string * Z))) :
  let all := concat objects in
  let merged := mergeObjects (map numbers objects) in
  Forall (λ key, inherited key = None) all.*1 →
  Forall (λ key, magnitude key all < 2 ^ 53) all.*1 →
  NoDup merged.*1 ∧
  (∀ key, obj_get key merged
          = if decide (key ∈ all.*1)
            then Some (Num (Finite (total key all))) else None) ∧
  merged.*1 = filter is_index merged.*1
              ++ first_seen (filter (λ k, ¬ is_index k) all.*1) ∧
  StronglySorted index_le (filter is_index merged.*1) ∧
  (∀ objects', objects' ≡ₚ objects →
     ∀ key, obj_get key (mergeObjects (map numbers objects'))
            = obj_get key merged) ∧
  mergeObjects [[("a", Finite 1); ("b", Finite 2)];
                [("b", Finite 3); ("c", Finite 5)]]
    = [("a", Num (Finite 1)); ("b", Num (Finite 5)); ("c", Num (Finite 5))] ∧
  mergeObjects [] = [].
Proof.
  intros all merged Hkeys Hsafe. unfold merged.
  rewrite (mergeObjects_exact objects Hkeys Hsafe). fold all.
  destruct (sums_keys all) as (Hnd & Horder & Hidx).
  split; [done|]. split; [apply sums_get|]. split; [done|]. split; [done|].
  split; [|split; reflexivity].
  intros objects' Hp key. pose proof (concat_perm _ _ Hp) as Hc.
  rewrite mergeObjects_exact, !sums_get.
  - unfold all. rewrite (total_perm key _ _ Hc).
    destruct (decide (key ∈ (concat objects').*1)) as [Hin|Hin].
    + rewrite decide_True; [done|]. by rewrite <- Hc.
    + rewrite decide_False; [done|]. by rewrite <- Hc.
  - by rewrite Hc.
  - rewrite Hc. eapply Forall_impl; [exact Hsafe|]. intros k Hk.
    by rewrite (magnitude_perm k _ _ Hc).
Qed.

Lemma mergeObjects_sums_witness :
  [[("b", 3); ("c", 5)]; [("a", 1); ("b", 2)]]
    ≡ₚ [[("a", 1); ("b", 2)]; [("b", 3); ("c", 5)]] ∧
  obj_get "b" (mergeObjects [[("b", Finite 3); ("c", Finite 5)];
                             [("a", Finite 1); ("b", Finite 2)]])
    = obj_get "b" (mergeObjects [[("a", Finite 1); ("b", Finite 2)];
                                 [("b", Finite 3); ("c", Finite 5)]]).
Proof.
  assert (Hp : [[("b", 3); ("c", 5)]; [("a", 1); ("b", 2)]]
            ≡ₚ [[("a", 1); ("b", 2)]; [("b", 3); ("c", 5)]])
    by apply Permutation_swap.
  split; [exact Hp|].
  destruct (mergeObjects_sums [[("a", 1); ("b", 2)]; [("b", 3); ("c", 5)]])
    as (_ & _ & _ & _ & Hperm & _).
  - repeat constructor.
  - repeat (constructor; [by vm_compute|]). constructor.
  - exact (Hperm _ Hp "b").
Defined.

(** C5 as stated fails: merging [{b: 1}] and [{1: 2}] gives an object that
    enumerates the key [1] before the key [b], which was seen first. *)
Lemma mergeObjects_index_key_first :
  mergeObjects [[("b", Finite 1)]; [("1", Finite 2)]]
    = [("1", Num (Finite 2)); ("b", Num (Finite 1))] ∧
  (mergeObjects [[("b", Finite 1)]; [("1", Finite 2)]]).*1
    ≠ first_seen (concat [[("b", Finite 1)]; [("1", Finite 2)]]).*1.
Proof. split; [reflexivity|]. by vm_compute. Qed.

(** Nor does it give the sum for a key that names a member of
    [Object.prototype]: the first value is added to the member that the
    empty [mergedObj] inherits, which gives a string, and every later value
    is appended to that string.  Under [__proto__] nothing is stored. *)
Lemma mergeObjects_inherited_key :
  mergeObjects [[("constructor", Finite 1)]; [("constructor", Finite 2)]]
    = [("constructor", Str Constructor [Finite 1; Finite 2])] ∧
  mergeObjects [[("__proto__", Finite 1); ("a", Finite 1)]]
    = [("a", Num (Finite 1))].
Proof. split; reflexivity. Qed.

(** Nor is the value independent of the order of the inputs when a sum is
    rounded: [2^53 + 1 + 1] is [2^53], each step rounded back, and
    [1 + 1 + 2^53] is [2^53 + 2]. *)
Lemma mergeObjects_rounds :
  obj_get "a" (mergeObjects [[("a", Finite (2 ^ 53))]; [("a", Finite 1)];
                             [("a", Finite 1)]])
    = Some (Num (Finite (2 ^ 53))) ∧
  obj_get "a" (mergeObjects [[("a", Finite 1)]; [("a", Finite 1)];
                             [("a", Finite (2 ^ 53))]])
    = Some (Num (Finite (2 ^ 53 + 2))).
Proof. split; by vm_compute. Qed.

End merge.

(** * Further properties of the code *)

(** ** Copies, removal, freezing and emptiness *)

Section objects_more.
Import Prototype Objects.







(** On the object that [makeImmutable] returns, [removeProperties] removes
    nothing: it returns the same reference and no object of the store has
    changed. *)
Theorem removeProperties_of_immutable (h : gmap nat object) obj o keys :
  h !! obj = Some o →
  removeProperties (makeImmutable h obj).1 (makeImmutable h obj).2 keys
  = ((makeImmutable h obj).1, obj)
  ∧ (makeImmutable h obj).1 !! obj = Some (Object (props o) true).
Proof.
  intros Hobj. unfold makeImmutable. simpl.
  assert (Hf : alter freeze obj h !! obj = Some (Object (props o) true)).
  { by rewrite lookup_alter_eq, Hobj. }
  split; [|done]. by apply (removeProperties_frozen keys _ _ (props o)).
Qed.

Lemma removeProperties_of_immutable_witness :
  abc_store !! 0 = Some (Object abc false) ∧
  removeProperties (makeImmutable abc_store 0).1 (makeImmutable abc_store 0).2
    ["a"; "b"; "c"]
  = ((makeImmutable abc_store 0).1, 0).
Proof.
  assert (H0 : abc_store !! 0 = Some (Object abc false)) by reflexivity.
  split; [exact H0|].
  exact (proj1 (removeProperties_of_immutable abc_store 0 _ ["a"; "b"; "c"] H0)).
Defined.

(** The result of [removeProperties] depends on which keys are listed, not
    on their order nor on how often a key is listed: a key is removed by its
    first mention and later mentions find nothing to remove. *)
Theorem removeProperties_by_key_set (h : gmap nat object) obj m
    (keys keys' : list string) :
  h !! obj = Some (Object m false) →
  (∀ k, k ∈ keys ↔ k ∈ keys') →
  removeProperties h obj keys = removeProperties h obj keys'.
Proof.
  intros Hobj Hsame.
  rewrite (removeProperties_run keys h obj m Hobj).
  rewrite (removeProperties_run keys' h obj m Hobj).
  do 3 f_equal. apply map_eq. intros k. rewrite !delete_all_lookup.
  apply (f_equal (λ b : bool, if b then None else m !! k)).
  apply bool_decide_ext, Hsame.
Qed.

Lemma removeProperties_by_key_set_witness :
  abc_store !! 0 = Some (Object abc false) ∧
  removeProperties abc_store 0 ["c"; "a"; "c"]
  = removeProperties abc_store 0 ["a"; "c"].
Proof.
  assert (H0 : abc_store !! 0 = Some (Object abc false)) by reflexivity.
  split; [exact H0|].
  apply (removeProperties_by_key_set abc_store 0 abc _ _ H0).
  intros k. rewrite !elem_of_cons. tauto.
Defined.

Lemma isEmptyObject_empty (m : gmap string value) :
  isEmptyObject m = true ↔ m = ∅.
Proof.
  unfold isEmptyObject. rewrite keys_length, Nat.eqb_eq.
  apply map_size_empty_iff.
Qed.

(** [isEmptyObject] answers [true] exactly for the object without
    properties, whatever values the properties hold; and an object that is
    not frozen is empty once all its keys have been removed from it. *)
Theorem isEmptyObject_after_removal (h : gmap nat object) obj m :
  h !! obj = Some (Object m false) →
  (isEmptyObject m = true ↔ m = ∅) ∧
  ∃ h',
    removeProperties h obj (keys m) = (h', obj) ∧
    h' !! obj = Some (Object ∅ false) ∧
    isEmptyObject ∅ = true.
Proof.
  intros Hobj. split; [apply isEmptyObject_empty|].
  eexists. split; [by apply removeProperties_run|].
  split; [|done]. rewrite lookup_insert_eq. do 2 f_equal.
  apply map_eq. intros k. rewrite delete_all_lookup, lookup_empty.
  case_bool_decide as Hk; [done|].
  destruct (m !! k) as [v|] eqn:Hm; [|done].
  destruct Hk. apply elem_of_keys. by exists v.
Qed.

Lemma isEmptyObject_after_removal_witness :
  abc_store !! 0 = Some (Object abc false) ∧
  isEmptyObject abc = false ∧
  ∃ h', removeProperties abc_store 0 (keys abc) = (h', 0) ∧
        h' !! 0 = Some (Object ∅ false).
Proof.
  assert (H0 : abc_store !! 0 = Some (Object abc false)) by reflexivity.
  split; [exact H0|]. split; [reflexivity|].
  destruct (isEmptyObject_after_removal abc_store 0 abc H0)
    as (_ & h' & Hrun & Hobj & _).
  exists h'. split; [exact Hrun|exact Hobj].
Defined.



End objects_more.

(** ** The ticket seller: other bills, other ways of giving change *)

Section tickets_more.
Import Tickets.
Local Open Scope Z_scope.

Lemma serve_taken_as (p : payments) (bill : Z) :
  serve p bill = serve p (taken_as bill).
Proof.
  unfold taken_as.
  destruct (bill =? 100) eqn:E100; simpl; [done|].
  destruct (bill =? 50) eqn:E50; simpl; [done|].
  unfold serve. by rewrite E100, E50.
Qed.

Lemma serve_all_taken_as (queue : list Z) : ∀ p,
  serve_all queue p = serve_all (map taken_as queue) p.
Proof.
  induction queue as [|bill queue IH]; intros p; simpl; [done|].
  rewrite <- serve_taken_as. destruct (serve p bill); [apply IH|done].
Qed.

Lemma taken_as_bill (bill : Z) : is_bill (taken_as bill).
Proof.
  unfold taken_as, is_bill.
  destruct (Z.eqb_spec bill 100); simpl; [lia|].
  destruct (Z.eqb_spec bill 50); lia.
Qed.

(** A queue element that is neither [50] nor [100], be it [25], [10],
    [200] or a negative number, is served as a 25: the answer of
    [sellTickets] is the one for the queue with every such element replaced
    by [25], which the rules of the till decide. *)
Theorem sellTickets_takes_other_bills_as_25 (queue : list Z) :
  sellTickets queue = sellTickets (map taken_as queue) ∧
  (sellTickets queue = true
   ↔ is_Some (spec_till (map taken_as queue) (Till 0 0))).
Proof.
  assert (Heq : sellTickets queue = sellTickets (map taken_as queue))
    by apply serve_all_taken_as.
  split; [done|]. rewrite Heq. unfold sellTickets.
  rewrite (serve_all_refines _ _ (Till 0 0)).
  - apply bool_decide_eq_true.
  - apply Forall_forall. intros b (x & -> & _)%list_elem_of_fmap.
    apply taken_as_bill.
  - by split.
Qed.

Lemma spec_serve_can_serve (t t' : till) (bill : Z) :
  spec_serve t bill = Some t' → can_serve t bill t'.
Proof.
  unfold spec_serve.
  destruct (Z.eqb_spec bill 25) as [->|?]; [intros [= <-]; constructor|].
  destruct (Z.eqb_spec bill 50) as [->|?].
  { destruct (Nat.leb_spec 1 (n25 t)); intros [= <-]. by constructor. }
  destruct (Z.eqb_spec bill 100) as [->|?]; [|done].
  destruct (Nat.leb_spec 1 (n50 t)).
  - destruct (Nat.leb_spec 1 (n25 t)); intros [= <-]. by constructor.
  - destruct (Nat.leb_spec 3 (n25 t)); intros [= <-].
    by apply serve_100_with_25s.
Qed.

(** Whatever change the seller gives from a till, the rule of the code
    serves the same bill from a till that is at least as good, and leaves
    one that is at least as good again. *)
Lemma spec_serve_keeps_up (g s s' : till) (bill : Z) :
  at_least_as_good g s → can_serve s bill s' →
  ∃ g', spec_serve g bill = Some g' ∧ at_least_as_good g' s'.
Proof.
  unfold at_least_as_good, worth, spec_serve.
  intros [Hw Hn] Hs. destruct g as [g25 g50], s as [s25 s50].
  assert (E50 : (50 =? 25) = false) by done.
  assert (E100 : (100 =? 25) = false) by done.
  assert (E100' : (100 =? 50) = false) by done.
  inversion Hs; subst; cbn [n25 n50] in *;
    rewrite ?Z.eqb_refl, ?E50, ?E100, ?E100'.
  - eexists. split; [done|]. simpl. lia.
  - destruct (Nat.leb_spec 1 g25); [|lia].
    eexists. split; [done|]. simpl. lia.
  - destruct (Nat.leb_spec 1 g50).
    + destruct (Nat.leb_spec 1 g25); [|lia].
      eexists. split; [done|]. simpl. lia.
    + destruct (Nat.leb_spec 3 g25); [|lia].
      eexists. split; [done|]. simpl. lia.
  - destruct (Nat.leb_spec 1 g50).
    + destruct (Nat.leb_spec 1 g25); [|lia].
      eexists. split; [done|]. simpl. lia.
    + destruct (Nat.leb_spec 3 g25); [|lia].
      eexists. split; [done|]. simpl. lia.
Qed.

Lemma spec_till_keeps_up (queue : list Z) : ∀ g s,
  at_least_as_good g s → can_serve_all s queue →
  is_Some (spec_till queue g).
Proof.
  induction queue as [|bill queue IH]; intros g s Hgs Hall; simpl.
  - by eexists.
  - inversion Hall as [|? ? s' ? Hone Hrest]; subst.
    destruct (spec_serve_keeps_up g s s' bill Hgs Hone) as (g' & -> & Hg').
    by apply (IH g' s').
Qed.

Lemma spec_till_can_serve_all (queue : list Z) : ∀ t,
  is_Some (spec_till queue t) → can_serve_all t queue.
Proof.
  induction queue as [|bill queue IH]; intros t; simpl; [constructor|].
  destruct (spec_serve t bill) as [t'|] eqn:Hs; [|by intros [? ?]].
  intros Hrest. econstructor; [by apply spec_serve_can_serve|by apply IH].
Qed.

(** The preference of the code for one 50 and one 25 as change for a 100
    loses nothing: on a queue of bills of 25, 50 and 100, [sellTickets]
    answers [true] exactly when the seller, starting with an empty till, can
    serve every customer in turn with some choice of change. *)
Theorem sellTickets_finds_a_way (queue : list Z) :
  Forall is_bill queue →
  (sellTickets queue = true ↔ can_serve_all (Till 0 0) queue).
Proof.
  intros Hq. unfold sellTickets.
  rewrite (serve_all_refines _ _ (Till 0 0) Hq) by by split.
  rewrite bool_decide_eq_true. split.
  - apply spec_till_can_serve_all.
  - by apply spec_till_keeps_up.
Qed.

Lemma sellTickets_finds_a_way_witness :
  Forall is_bill [25; 25; 25; 25; 50; 100; 100] ∧
  ¬ can_serve_all (Till 0 0) [25; 25; 25; 25; 50; 100; 100].
Proof.
  assert (Hq : Forall is_bill [25; 25; 25; 25; 50; 100; 100]).
  { repeat constructor; unfold is_bill; lia. }
  split; [exact Hq|].
  intros Hway. apply (proj2 (sellTickets_finds_a_way _ Hq)) in Hway.
  vm_compute in Hway. discriminate.
Defined.

End tickets_more.

(** ** Making a word *)

Section words.
Import Words.









End words.

(** ** Rectangles *)

Section rectangles.
Import Numbers Rectangles.
Local Open Scope Z_scope.
Local Arguments multiply : simpl never.

Lemma rectangles_fresh_unused (h : gmap nat rectangle) :
  h !! fresh (dom h) = None.
Proof. apply not_elem_of_dom, is_fresh. Qed.

(** [getArea] of a rectangle made by [new Rectangle] is computed from the
    fields at the time of the call: it is the product of the width and the
    height given, and follows every later assignment to [width] and
    [height].  The product is the product of the integers where that is
    below [2^53] in magnitude, as in the documented [Rectangle(10, 20)];
    beyond, it is rounded, as for a square of side [94906267]. *)
Theorem getArea_follows_fields (h : gmap nat rectangle)
    (w ht w' ht' : number) :
  let '(h1, r) := Rectangle h w ht in
  call_getArea h1 r = Some (multiply w ht) ∧
  call_getArea (set_width h1 r w') r = Some (multiply w' ht) ∧
  call_getArea (set_height (set_width h1 r w') r ht') r
    = Some (multiply w' ht') ∧
  (∀ a b, Z.abs (a * b) < 2 ^ 53 →
          multiply (Finite a) (Finite b) = Finite (a * b)) ∧
  multiply (Finite 10) (Finite 20) = Finite 200 ∧
  multiply (Finite 94906267) (Finite 94906267) = Finite 9007199515875288.
Proof.
  unfold Rectangle, call_getArea, set_width, set_height. simpl.
  rewrite !lookup_alter_eq, !lookup_insert_eq. simpl.
  rewrite !lookup_alter_eq, !lookup_insert_eq. simpl.
  split; [done|]. split; [done|]. split; [done|].
  split; [apply multiply_safe|]. split; by vm_compute.
Qed.

(** A shallow copy of a rectangle carries the function of the original:
    [getArea] called on the copy gives the area of the original, whatever is
    assigned to the fields of the copy, and follows the assignments to the
    original. *)
Theorem getArea_of_copy_reads_original (h : gmap nat rectangle)
    (w ht w' w'' : number) :
  let '(h1, r) := Rectangle h w ht in
  ∃ h2 copy,
    shallowCopy h1 r = Some (h2, copy) ∧
    copy ≠ r ∧
    call_getArea h2 copy = Some (multiply w ht) ∧
    call_getArea (set_width h2 copy w') copy = Some (multiply w ht) ∧
    call_getArea (set_width h2 r w'') copy = Some (multiply w'' ht).
Proof.
  unfold Rectangle, shallowCopy. rewrite lookup_insert_eq. simpl.
  set (r := fresh (dom h)).
  set (h1 := <[r := {| width := w; height := ht; getArea := r |}]> h).
  set (c := fresh (dom h1)).
  assert (Hne : c ≠ r).
  { intros E. pose proof (rectangles_fresh_unused h1) as Hc.
    fold c in Hc. rewrite E in Hc. unfold h1 in Hc.
    by rewrite lookup_insert_eq in Hc. }
  eexists _, _. split; [done|]. split; [done|].
  unfold call_getArea, set_width.
  rewrite !lookup_alter_eq, !lookup_alter_ne, !lookup_insert_eq by done.
  simpl. rewrite !lookup_alter_ne, !lookup_alter_eq by done.
  rewrite !lookup_insert_ne by done. unfold h1.
  rewrite !lookup_insert_eq. done.
Qed.

End rectangles.

(** ** The selector builder: whole chains, failed calls, separate objects *)

Section builder_more.
Import cssSelectorBuilder.

Lemma join_added (calls : list (method * string)) :
  join (map added calls) = String.concat "" (map (λ c, text c.1 c.2) calls).
Proof.
  unfold join. f_equal. rewrite map_map. done.
Qed.

(** A chain that respects order and uniqueness, ended by [stringify],
    returns the texts of the fragments the first object held followed by the
    text of every call, in the order of the calls: the value as it is for an
    element, after [#] for an id, after [.] for a class, between brackets
    for an attribute, after [:] for a pseudo-class and after [::] for a
    pseudo-element. *)
Theorem chain_stringify h this l calls :
  fragments h this = Some l →
  respects l calls = true →
  ((b ← chain calls this; stringify b) h).1
  = Ok (join l +:+ String.concat "" (map (λ c, text c.1 c.2) calls)).
Proof.
  intros Hl Hr.
  destruct (chain_respects calls h this l Hl Hr) as (b & h1 & Hrun & Hb).
  rewrite (bind_ok _ _ _ _ _ Hrun).
  destruct (stringify_run h1 b _ Hb) as (h2 & -> & _). simpl.
  by rewrite join_app, join_added.
Qed.

Lemma chain_stringify_witness :
  fragments initial builder = Some [] ∧
  respects [] [(Element, "a"); (Attr, "href$=.png"); (PseudoClass, "focus")]
    = true ∧
  ((b ← chain [(Element, "a"); (Attr, "href$=.png"); (PseudoClass, "focus")]
          builder;
    stringify b) initial).1
  = Ok "a[href$=.png]:focus".
Proof.
  split; [reflexivity|]. split; [reflexivity|].
  exact (chain_stringify initial builder []
           [(Element, "a"); (Attr, "href$=.png"); (PseudoClass, "focus")]
           eq_refl eq_refl).
Defined.

Lemma with_copy_fragments_all h o :
  fragments (with_copy h) o = fragments h o.
Proof.
  unfold fragments, with_copy. simpl.
  destruct (decide (o = fresh (dom (objects h)))) as [->|Hne].
  - by rewrite lookup_insert_eq, fresh_unused.
  - by rewrite lookup_insert_ne.
Qed.

(** A call that throws changes no fragment list: what every object holds
    after the throw is what it held before, so the object the call was made
    on can still take a call that is in order. *)
Theorem failed_call_changes_nothing h this l m v e :
  fragments h this = Some l →
  violation (map type l) (kind m) = Some e →
  (invoke m this v h).1 = Throw e ∧
  (∀ o, fragments (invoke m this v h).2 o = fragments h o) ∧
  (∀ m' v', violation (map type l) (kind m') = None →
     ∃ c h', invoke m' this v' (invoke m this v h).2 = (Ok c, h') ∧
             fragments h' c = Some (l ++ [added (m', v')])).
Proof.
  intros Hl Hv. destruct (fragments_inv _ _ _ Hl) as (a & Ho & Ha).
  assert (Hsame : ∀ o, fragments (invoke m this v h).2 o = fragments h o).
  { intros o. rewrite (invoke_run h this a l m v Ho Ha), Hv. simpl.
    destruct m; try done; apply with_copy_fragments_all. }
  split; [by apply (invoke_throws h this l)|]. split; [done|].
  intros m' v' Hv'.
  destruct (invoke_returns (invoke m this v h).2 this l m' v')
    as (c & h' & Hrun & Hc & _); [by rewrite Hsame|done|].
  by exists c, h'.
Qed.

Lemma failed_call_changes_nothing_witness :
  fragments sample_store 2
    = Some [Fragment "table" TElement; Fragment "#data" TId] ∧
  violation [TElement; TId] TElement = Some DuplicateError ∧
  fragments (element 2 "td" sample_store).2 2
    = Some [Fragment "table" TElement; Fragment "#data" TId].
Proof.
  split; [reflexivity|]. split; [reflexivity|].
  destruct (failed_call_changes_nothing sample_store 2 _ Element "td"
              DuplicateError eq_refl eq_refl) as (_ & Hsame & _).
  exact (Hsame 2).
Defined.

(** *** Separate objects *)

Lemma separate_with_copy h : separate h → separate (with_copy h).
Proof.
  intros [Hex Hinj]. unfold with_copy. split; simpl.
  - intros o a. destruct (decide (o = fresh (dom (objects h)))) as [->|Hne].
    + by rewrite lookup_insert_eq.
    + rewrite lookup_insert_ne by done. apply Hex.
  - intros o1 o2 a.
    destruct (decide (o1 = fresh (dom (objects h)))) as [->|Hne1];
      [by rewrite lookup_insert_eq|].
    destruct (decide (o2 = fresh (dom (objects h)))) as [->|Hne2];
      [by rewrite (lookup_insert_eq (objects h))|].
    rewrite !lookup_insert_ne by done. apply Hinj.
Qed.

(** Giving [this] a new array keeps the objects separate when the object
    [c] takes over the array [this] had. *)
Lemma separate_handed_over h this c a l' :
  separate h →
  objects h !! this = Some (Some a) →
  objects h !! c = Some None →
  separate (handed_over h this c a l').
Proof.
  intros [Hex Hinj] Hthis Hc. unfold handed_over.
  set (arrs := <[a := l']> (arrays h)). set (e := fresh (dom arrs)).
  assert (Hea : e ≠ a) by apply (fresh_differs _ a l'), lookup_insert_eq.
  assert (Hfresh : ∀ o, objects h !! o ≠ Some (Some e)).
  { intros o Ho. destruct (Hex o e Ho) as [le Hle].
    apply (fresh_differs arrs e le); [|done].
    unfold arrs. by rewrite lookup_insert_ne. }
  assert (Hct : c ≠ this) by (intros ->; rewrite Hthis in Hc; discriminate).
  assert (Hlook : ∀ o b,
    (<[this := Some e]> (<[c := Some a]> (objects h))) !! o = Some (Some b) →
    (o = this ∧ b = e) ∨ (o = c ∧ b = a)
    ∨ (o ≠ this ∧ o ≠ c ∧ objects h !! o = Some (Some b))).
  { intros o b. destruct (decide (o = this)) as [->|Hn1].
    - rewrite lookup_insert_eq. intros [= <-]. by left.
    - rewrite lookup_insert_ne by done. destruct (decide (o = c)) as [->|Hn2].
      + rewrite lookup_insert_eq. intros [= <-]. right. by left.
      + rewrite lookup_insert_ne by done. intros Ho. right. by right. }
  split; simpl.
  - intros o b [[-> ->]|[[-> ->]|(_ & _ & Ho)]]%Hlook.
    + by rewrite lookup_insert_eq.
    + rewrite lookup_insert_ne by done. unfold arrs.
      by rewrite lookup_insert_eq.
    + destruct (Hex o b Ho) as [lb Hlb].
      destruct (decide (b = e)) as [->|Hbe]; [by rewrite lookup_insert_eq|].
      rewrite lookup_insert_ne by done. unfold arrs.
      destruct (decide (b = a)) as [->|Hba]; [by rewrite lookup_insert_eq|].
      by rewrite lookup_insert_ne.
  - intros o1 o2 b H1%Hlook H2%Hlook.
    destruct H1 as [[E1 B1]|[[E1 B1]|(Hn1 & Hn1' & Ho1)]];
      destruct H2 as [[E2 B2]|[[E2 B2]|(Hn2 & Hn2' & Ho2)]];
      try congruence;
      first [ rewrite B1 in Ho2; by destruct (Hfresh o2)
            | rewrite B2 in Ho1; by destruct (Hfresh o1)
            | rewrite B1 in Ho2; destruct Hn2; by apply (Hinj o2 this a)
            | rewrite B2 in Ho1; destruct Hn1; by apply (Hinj o1 this a)
            | by apply (Hinj o1 o2 b) ].
Qed.

Lemma separate_emptied h this f :
  separate h → objects h !! this = Some f → separate (emptied h this).
Proof.
  intros [Hex Hinj] Hthis. unfold emptied.
  set (e := fresh (dom (arrays h))).
  assert (Hfresh : ∀ o, objects h !! o ≠ Some (Some e)).
  { intros o Ho. destruct (Hex o e Ho) as [le Hle].
    by apply (fresh_differs (arrays h) e le). }
  split; simpl.
  - intros o b. destruct (decide (o = this)) as [->|Hne].
    + rewrite lookup_insert_eq. intros [= <-]. by rewrite lookup_insert_eq.
    + rewrite lookup_insert_ne by done. intros Ho.
      destruct (Hex o b Ho) as [lb Hlb].
      destruct (decide (b = e)) as [->|Hbe]; [by rewrite lookup_insert_eq|].
      by rewrite lookup_insert_ne.
  - intros o1 o2 b.
    destruct (decide (o1 = this)) as [->|Hn1];
      destruct (decide (o2 = this)) as [->|Hn2]; try done;
      rewrite ?lookup_insert_eq, ?lookup_insert_ne by done.
    + intros [= <-] Ho2. by destruct (Hfresh o2).
    + intros Ho1 [= <-]. by destruct (Hfresh o1).
    + apply Hinj.
Qed.

Lemma stringify_store h this a l :
  objects h !! this = Some (Some a) → arrays h !! a = Some l →
  stringify this h = (Ok (join l), emptied h this).
Proof.
  intros Ho Ha.
  unfold stringify, mbind, M_bind, bind, get_selectors, read_array.
  rewrite Ho, Ha. unfold new_array, set_selectors. simpl. by rewrite Ho.
Qed.

Lemma get_selectors_none h o :
  fragments h o = None →
  (∀ a, objects h !! o = Some (Some a) → is_Some (arrays h !! a)) →
  get_selectors o h = (Throw TypeError, h).
Proof.
  unfold fragments, get_selectors.
  destruct (objects h !! o) as [[a|]|]; try done.
  intros Hnone Hex. destruct (Hex a eq_refl) as [l Hl].
  rewrite Hl in Hnone. discriminate.
Qed.

Lemma checks_none h o :
  fragments h o = None →
  (∀ a, objects h !! o = Some (Some a) → is_Some (arrays h !! a)) →
  (∀ ty, checkType o ty h = (Throw TypeError, h)) ∧
  (∀ n, checkOrder o n h = (Throw TypeError, h)).
Proof.
  intros Hnone Hex. split; intros x;
    unfold checkType, checkOrder, mbind, M_bind, bind;
    by rewrite (get_selectors_none h o Hnone Hex).
Qed.

(** The store of a call made on something that holds no fragment list. *)
Lemma invoke_none h this m v :
  separate h → fragments h this = None →
  (invoke m this v h).2 = h ∨ (invoke m this v h).2 = with_copy h.
Proof.
  intros [Hex _] Hnone.
  destruct (checks_none h this Hnone (Hex this)) as [Hty Hord].
  assert (Hnone' : fragments (with_copy h) this = None)
    by by rewrite with_copy_fragments_all.
  assert (Hex' : ∀ a, objects (with_copy h) !! this = Some (Some a) →
            is_Some (arrays (with_copy h) !! a)).
  { intros a Ha. simpl in *.
    destruct (decide (this = fresh (dom (objects h)))) as [->|Hne].
    - by rewrite lookup_insert_eq in Ha.
    - rewrite lookup_insert_ne in Ha by done. by apply (Hex this). }
  destruct (checks_none _ this Hnone' Hex') as [Hty' Hord'].
  destruct m; simpl;
    unfold element, id, class, attr, pseudoClass, pseudoElement,
      mbind, M_bind, bind;
    rewrite ?Hty, ?Hord; simpl; auto.
  change (new_object h) with (Ok (fresh (dom (objects h))), with_copy h).
  rewrite Hty'. simpl. auto.
Qed.

Lemma separate_initial : separate initial.
Proof.
  split.
  - intros o a. unfold initial, builder. simpl.
    destruct (decide (o = 0)) as [->|Hne].
    + rewrite lookup_singleton_eq. intros [= <-].
      by rewrite lookup_singleton_eq.
    + by rewrite lookup_singleton_ne.
  - intros o1 o2 a. unfold initial, builder. simpl.
    destruct (decide (o1 = 0)) as [->|Hn1];
      [|by rewrite (lookup_singleton_ne 0 o1)].
    destruct (decide (o2 = 0)) as [->|Hn2]; [done|].
    by rewrite (lookup_singleton_ne 0 o2).
Qed.

Lemma copy_in_place h this a :
  objects h !! this = Some (Some a) →
  objects (with_copy h) !! this = Some (Some a) ∧
  objects (with_copy h) !! fresh (dom (objects h)) = Some None.
Proof.
  intros Ho. simpl. split; [|apply lookup_insert_eq].
  rewrite lookup_insert_ne; [done|]. by apply (fresh_differs _ this (Some a)).
Qed.

Lemma separate_invoke h this m v :
  separate h → separate (invoke m this v h).2.
Proof.
  intros Hsep. destruct (fragments h this) as [l|] eqn:Hl.
  - destruct (fragments_inv _ _ _ Hl) as (a & Ho & Ha).
    rewrite (invoke_run h this a l m v Ho Ha).
    destruct (violation _ _); simpl.
    + destruct m; try done; by apply separate_with_copy.
    + destruct (copy_in_place h this a Ho) as [Ho' Hc'].
      by apply separate_handed_over; [apply separate_with_copy|..].
  - destruct (invoke_none h this m v Hsep Hl) as [-> | ->];
      [done|by apply separate_with_copy].
Qed.

Lemma separate_stringify h this :
  separate h → separate (stringify this h).2.
Proof.
  intros Hsep. destruct (fragments h this) as [l|] eqn:Hl.
  - destruct (fragments_inv _ _ _ Hl) as (a & Ho & Ha).
    rewrite (stringify_store h this a l Ho Ha). simpl.
    by apply (separate_emptied h this (Some a)).
  - unfold stringify, mbind, M_bind, bind.
    rewrite (get_selectors_none h this Hl); [done|].
    destruct Hsep as [Hex _]. apply Hex.
Qed.

Lemma separate_combine h this l selector1 l1 combinator selector2 l2 :
  separate h →
  fragments h this = Some l →
  fragments h selector1 = Some l1 →
  fragments h selector2 = Some l2 →
  separate (combine this selector1 combinator selector2 h).2.
Proof.
  intros Hsep Hl H1 H2.
  destruct (fragments_inv _ _ _ Hl) as (a & Ho & Ha).
  rewrite (combine_run h this a l _ l1 combinator _ l2 Ho Ha H1 H2). simpl.
  destruct (copy_in_place h this a Ho) as [Ho' Hc'].
  by apply separate_handed_over; [apply separate_with_copy|..].
Qed.

(** The builder keeps its objects separate: this holds when the module is
    loaded, and it holds after every fragment-adding call, whether it returns
    or throws, after every [stringify], and after every [combine] of two
    objects that hold fragment lists.  So no array of fragments is ever
    reached from two objects. *)
Theorem objects_stay_separate :
  separate initial ∧
  ∀ h this, separate h →
    (∀ m v, separate (invoke m this v h).2) ∧
    separate (stringify this h).2 ∧
    (∀ l selector1 l1 combinator selector2 l2,
       fragments h this = Some l →
       fragments h selector1 = Some l1 →
       fragments h selector2 = Some l2 →
       separate (combine this selector1 combinator selector2 h).2).
Proof.
  split; [apply separate_initial|]. intros h this Hsep.
  split; [intros m v; by apply separate_invoke|].
  split; [by apply separate_stringify|].
  intros l s1 l1 comb s2 l2. by apply separate_combine.
Qed.

Lemma objects_stay_separate_witness :
  separate initial ∧
  separate (element builder "div" initial).2 ∧
  separate (id builder "main" (element builder "div" initial).2).2.
Proof.
  destruct objects_stay_separate as [Hinit Hstep].
  split; [exact Hinit|].
  assert (H1 : separate (element builder "div" initial).2)
    by exact (proj1 (Hstep initial builder Hinit) Element "div").
  split; [exact H1|].
  exact (proj1 (Hstep _ builder H1) Id "main").
Defined.

Lemma frame_handed_over h this c a l' o :
  separate h →
  objects h !! this = Some (Some a) →
  o ≠ this → o ≠ c →
  fragments (handed_over h this c a l') o = fragments h o.
Proof.
  intros [Hex Hinj] Hthis Hn1 Hn2. unfold fragments.
  rewrite handed_over_objects by done.
  destruct (objects h !! o) as [[b|]|] eqn:Ho; try done.
  destruct (Hex o b Ho) as [lb Hlb]. rewrite Hlb.
  apply handed_over_arrays; [|done].
  intros ->. apply Hn1. by apply (Hinj o this a).
Qed.

Lemma frame_emptied h this o :
  separate h → o ≠ this →
  fragments (emptied h this) o = fragments h o.
Proof.
  intros [Hex Hinj] Hne. unfold fragments, emptied. simpl.
  rewrite lookup_insert_ne by done.
  destruct (objects h !! o) as [[b|]|] eqn:Ho; try done.
  destruct (Hex o b Ho) as [lb Hlb].
  rewrite lookup_insert_ne; [done|]. by apply (fresh_differs _ b lb).
Qed.

Lemma frame_copy h this a l' o :
  separate h →
  objects h !! this = Some (Some a) →
  o ≠ this → is_Some (objects h !! o) →
  fragments (handed_over (with_copy h) this (fresh (dom (objects h))) a l') o
  = fragments h o.
Proof.
  intros Hsep Hthis Hne [f Hf].
  rewrite frame_handed_over.
  - apply with_copy_fragments_all.
  - by apply separate_with_copy.
  - simpl. rewrite lookup_insert_ne; [done|].
    by apply (fresh_differs _ this (Some a)).
  - done.
  - apply not_eq_sym. by apply (fresh_differs _ o f).
Qed.

(** In a store of separate objects, no operation on one object changes what
    another object holds: neither a fragment-adding call, returning or
    throwing, nor [stringify], nor [combine]. *)
Theorem other_objects_untouched h this l o :
  separate h →
  fragments h this = Some l →
  o ≠ this →
  is_Some (objects h !! o) →
  (∀ m v, fragments (invoke m this v h).2 o = fragments h o) ∧
  fragments (stringify this h).2 o = fragments h o ∧
  (∀ selector1 l1 combinator selector2 l2,
     fragments h selector1 = Some l1 →
     fragments h selector2 = Some l2 →
     fragments (combine this selector1 combinator selector2 h).2 o
     = fragments h o).
Proof.
  intros Hsep Hl Hne Ho.
  destruct (fragments_inv _ _ _ Hl) as (a & Hthis & Ha).
  split; [|split].
  - intros m v. rewrite (invoke_run h this a l m v Hthis Ha).
    destruct (violation _ _); simpl.
    + destruct m; try done; apply with_copy_fragments_all.
    + by apply frame_copy.
  - rewrite (stringify_store h this a l Hthis Ha). simpl.
    by apply frame_emptied.
  - intros s1 l1 comb s2 l2 H1 H2.
    rewrite (combine_run h this a l s1 l1 comb s2 l2 Hthis Ha H1 H2). simpl.
    by apply frame_copy.
Qed.

Lemma other_objects_untouched_witness :
  separate sample_store ∧
  fragments sample_store 1 = Some [Fragment "div" TElement] ∧
  fragments (class 1 "big" sample_store).2 2
    = Some [Fragment "table" TElement; Fragment "#data" TId].
Proof.
  assert (Hsep : separate sample_store).
  { split.
    - intros o a Ho. unfold sample_store in *. simpl in *.
      destruct (decide (o = 0)) as [->|?]; [by injection Ho as <-|].
      destruct (decide (o = 1)) as [->|?]; [by injection Ho as <-|].
      destruct (decide (o = 2)) as [->|?]; [by injection Ho as <-|].
      rewrite !lookup_insert_ne, lookup_singleton_ne in Ho by done.
      discriminate.
    - intros o1 o2 a Ho1 Ho2. unfold sample_store in *. simpl in *.
      assert (Hid : ∀ o, ({[0 := Some 0; 1 := Some 1; 2 := Some 2]}
                : gmap nat (option nat)) !! o = Some (Some a) → o = a).
      { intros o Ho.
        destruct (decide (o = 0)) as [->|?]; [by injection Ho as <-|].
        destruct (decide (o = 1)) as [->|?]; [by injection Ho as <-|].
        destruct (decide (o = 2)) as [->|?]; [by injection Ho as <-|].
        rewrite !lookup_insert_ne, lookup_singleton_ne in Ho by done.
        discriminate. }
      by rewrite (Hid o1 Ho1), (Hid o2 Ho2). }
  split; [exact Hsep|]. split; [reflexivity|].
  destruct (other_objects_untouched sample_store 1 _ 2 Hsep eq_refl)
    as (Hcall & _ & _); [done|by eexists|].
  exact (Hcall Class "big").
Defined.

(** [combine] called on an object holding [l], for two objects holding [l1]
    and [l2], returns a new object that holds [l], then [l1], then the
    combinator between two spaces as a fragment of its own, then [l2].  It
    empties the object it is called on, and in a store of separate objects it
    leaves its two operands as they are, unless one of them is that
    object. *)
Theorem combine_keeps_operands h this l selector1 l1 combinator selector2 l2 :
  separate h →
  fragments h this = Some l →
  fragments h selector1 = Some l1 →
  fragments h selector2 = Some l2 →
  ∃ c h',
    combine this selector1 combinator selector2 h = (Ok c, h') ∧
    objects h !! c = None ∧
    fragments h' c
      = Some (l ++ l1
                ++ [Fragment (" " +:+ combinator +:+ " ") TCombinator] ++ l2) ∧
    fragments h' this = Some [] ∧
    (selector1 ≠ this → fragments h' selector1 = Some l1) ∧
    (selector2 ≠ this → fragments h' selector2 = Some l2).
Proof.
  intros Hsep Hl H1 H2.
  destruct (fragments_inv _ _ _ Hl) as (a & Hthis & Ha).
  assert (Hobj : ∀ s ls, fragments h s = Some ls → is_Some (objects h !! s)).
  { intros s ls (b & Hs & _)%fragments_inv. by eexists. }
  eexists _, _.
  split; [exact (combine_run h this a l _ l1 combinator _ l2 Hthis Ha H1 H2)|].
  split; [apply fresh_unused|]. split.
  { apply handed_over_copy. by apply (fresh_differs _ this (Some a)). }
  split; [apply handed_over_this|].
  split; intros Hne; (rewrite frame_copy; [done..|]); eauto.
Qed.

Lemma combine_keeps_operands_witness :
  separate initial ∧
  ∃ d t c h',
    (d ← element builder "div"; t ← element builder "table";
     c ← combine builder d "+" t; ret (d, t, c)) initial
    = (Ok (d, t, c), h') ∧
    fragments h' d = Some [Fragment "div" TElement] ∧
    fragments h' t = Some [Fragment "table" TElement] ∧
    fragments h' builder = Some [].
Proof.
  split; [exact separate_initial|].
  set (r1 := element builder "div" initial).
  set (r2 := element builder "table" r1.2).
  assert (Hs1 : separate r1.2)
    by exact (separate_invoke _ builder Element "div" separate_initial).
  assert (Hs2 : separate r2.2)
    by exact (separate_invoke _ builder Element "table" Hs1).
  destruct (combine_keeps_operands r2.2 builder [] 1 [Fragment "div" TElement]
              "+" 2 [Fragment "table" TElement] Hs2)
    as (c & h' & Hrun & _ & _ & Hb & Hd & Ht); [reflexivity..|].
  exists 1, 2, c, h'. split.
  - unfold mbind, M_bind, bind. fold r1. change r1 with (Ok 1, r1.2).
    cbv beta iota. fold r2. change r2 with (Ok 2, r2.2). cbv beta iota.
    by rewrite Hrun.
  - split; [by apply Hd|]. split; [by apply Ht|exact Hb].
Defined.

End builder_more.

(** ** Merging objects: one object, merging in steps *)

Section merge_more.
Import Prototype Numbers Merge.
Local Open Scope Z_scope.
Local Arguments merge_entry : simpl never.

(** Entries with new keys that name no member of [Object.prototype], given
    in the order of enumeration, are taken over as they are. *)
Lemma foldl_merge_enumeration (rest : list (string * number)) : ∀ acc,
  Forall (λ k, inherited k = None) rest.*1 →
  enumeration (acc ++ merged_of rest) →
  foldl merge_entry acc rest = acc ++ merged_of rest.
Proof.
  induction rest as [|[k v] rest IH]; intros acc Hkeys [Hnd Hs]; simpl.
  - by rewrite app_nil_r.
  - csimpl in Hkeys. apply Forall_cons in Hkeys as [Hk Hkeys].
    assert (Hnew : obj_get k acc = None).
    { apply obj_get_None. rewrite fmap_app in Hnd.
      apply NoDup_app in Hnd as (_ & Hdis & _). intros Hin.
      apply (Hdis k Hin). csimpl. left. }
    assert (Hstep : merge_entry acc (k, v) = acc ++ [(k, Num v)]).
    { unfold merge_entry, get, assign, set_property. rewrite Hnew, Hk. simpl.
      rewrite decide_False by by apply not_proto.
      apply add_property_end. intros k' Hk'. rewrite fmap_app in Hs.
      apply (StronglySorted_app_1_elem_of _ _ _ _ _ Hs Hk'). csimpl. left. }
    rewrite Hstep, IH; rewrite <- ?app_assoc; [done|done|]. by split.
Qed.

(** Merging a single object, no key of which names a member of
    [Object.prototype], gives an object with the same entries in the same
    order, whatever its values: zeros, infinities and [NaN] among them. *)
Theorem mergeObjects_single (o : list (string * number)) :
  enumeration o →
  Forall (λ k, inherited k = None) o.*1 →
  mergeObjects [o] = merged_of o.
Proof.
  intros [Hnd Hs] Hkeys. unfold mergeObjects. simpl.
  apply (foldl_merge_enumeration o []); [done|]. simpl.
  unfold enumeration, merged_of. by rewrite keys_with_values.
Qed.

Lemma mergeObjects_single_witness :
  mergeObjects [[("2", Finite 7); ("10", Finite 0); ("b", NaN);
                 ("a", Infinity true)]]
  = [("2", Num (Finite 7)); ("10", Num (Finite 0)); ("b", Num NaN);
     ("a", Num (Infinity true))].
Proof.
  apply (mergeObjects_single
           [("2", Finite 7); ("10", Finite 0); ("b", NaN);
            ("a", Infinity true)]).
  - split.
    + apply (bool_decide_unpack _). by vm_compute.
    + csimpl. repeat (constructor; [|repeat constructor; vm_compute; done]).
      constructor.
  - repeat constructor.
Defined.

(** *** What every merged object is like *)

Lemma merge_entry_keys (acc : list (string * value)) (k : string)
    (v : number) :
  merge_entry acc (k, v) = acc ∨
  ∃ x, merge_entry acc (k, v) = set_property k x acc.
Proof.
  unfold merge_entry, assign.
  destruct (decide (k = "__proto__")); [by destruct (truthy _); left|].
  right. destruct (truthy _); by eexists.
Qed.

Lemma NoDup_keys_foldl_merge (entries : list (string * number)) : ∀ acc,
  NoDup acc.*1 → NoDup (foldl merge_entry acc entries).*1.
Proof.
  induction entries as [|[k v] entries IH]; intros acc Hnd; simpl; [done|].
  apply IH. destruct (merge_entry_keys acc k v) as [->|[x ->]]; [done|].
  by apply NoDup_keys_set.
Qed.

Lemma foldl_merge_enumerated (entries : list (string * number)) : ∀ acc,
  StronglySorted enumerated_before acc.*1 →
  StronglySorted enumerated_before (foldl merge_entry acc entries).*1.
Proof.
  induction entries as [|[k v] entries IH]; intros acc Hs; simpl; [done|].
  apply IH. destruct (merge_entry_keys acc k v) as [->|[x ->]]; [done|].
  by apply set_property_enumerated.
Qed.

(** A number is only held under a key that names no member of
    [Object.prototype]. *)
Lemma merge_entry_numbers (acc : list (string * value)) (k : string)
    (v : number) :
  (∀ key n, obj_get key acc = Some (Num n) → inherited key = None) →
  ∀ key n, obj_get key (merge_entry acc (k, v)) = Some (Num n) →
           inherited key = None.
Proof.
  intros Hinv key n. unfold merge_entry, assign.
  destruct (decide (k = "__proto__")); [destruct (truthy _); apply Hinv|].
  assert (Hget : ∀ x, obj_get key (set_property k x acc) = Some (Num n) →
            (key = k ∧ x = Num n) ∨ obj_get key acc = Some (Num n)).
  { intros x. rewrite obj_get_set.
    destruct (decide (key = k)); [|by right]. intros [= ->]. by left. }
  unfold get. destruct (obj_get k acc) as [[n'|m l|m]|] eqn:E; simpl.
  - destruct (Numbers.truthy n');
      intros [[-> _]|Hold]%Hget; eauto.
  - intros [[_ [=]]|Hold]%Hget; eauto.
  - intros [[_ [=]]|Hold]%Hget; eauto.
  - destruct (inherited k) as [m|] eqn:Hk; simpl.
    + intros [[_ [=]]|Hold]%Hget; eauto.
    + intros [[-> _]|Hold]%Hget; eauto.
Qed.

Lemma foldl_merge_numbers (entries : list (string * number)) : ∀ acc,
  (∀ key n, obj_get key acc = Some (Num n) → inherited key = None) →
  ∀ key n, obj_get key (foldl merge_entry acc entries) = Some (Num n) →
           inherited key = None.
Proof.
  induction entries as [|[k v] entries IH]; intros acc Hinv; simpl; [done|].
  apply IH. by apply merge_entry_numbers.
Qed.

Lemma numeric_Some (m : list (string * value)) (o : list (string * number)) :
  numeric m = Some o → m = merged_of o.
Proof.
  unfold numeric. rewrite mapM_Some. induction 1 as [|[k x] y m o Hx _ IH].
  - done.
  - simpl in Hx. destruct x as [n| |]; try discriminate.
    injection Hx as <-. csimpl. by rewrite IH.
Qed.

(** The result of a merge that holds numbers only can be merged further:
    merging it with the objects [ys] gives the object that merging all the
    objects at once gives, with the same keys in the same order and the same
    values, each value being reached by the same additions. *)
Theorem mergeObjects_in_steps (xs ys : list (list (string * number)))
    (o : list (string * number)) :
  numeric (mergeObjects xs) = Some o →
  mergeObjects (o :: ys) = mergeObjects (xs ++ ys).
Proof.
  intros Ho%numeric_Some.
  rewrite (mergeObjects_concat (xs ++ ys)), concat_app, foldl_app.
  rewrite <- (mergeObjects_concat xs).
  rewrite (mergeObjects_concat (_ :: ys)). simpl. rewrite foldl_app.
  f_equal. rewrite Ho. apply (foldl_merge_enumeration o []).
  - apply Forall_forall. intros k Hk.
    destruct (obj_get k o) as [n|] eqn:Hn;
      [|by apply obj_get_None in Hn].
    apply (foldl_merge_numbers (concat xs) [] (λ _ _ H, ltac:(done)) k n).
    rewrite <- mergeObjects_concat, Ho. unfold merged_of.
    by rewrite obj_get_with_values, Hn.
  - simpl. rewrite <- Ho, mergeObjects_concat. split.
    + apply NoDup_keys_foldl_merge. constructor.
    + apply foldl_merge_enumerated. constructor.
Qed.

(** *** Keys that name a member of [Object.prototype] *)

Lemma merge_entry_other (acc : list (string * value)) (k key : string)
    (v : number) :
  key ≠ k → obj_get key (merge_entry acc (k, v)) = obj_get key acc.
Proof.
  intros Hne. destruct (merge_entry_keys acc k v) as [->|[x ->]]; [done|].
  by rewrite obj_get_set, decide_False.
Qed.

Lemma foldl_merge_text (k : string) (m : member)
    (entries : list (string * number)) :
  k ≠ "__proto__" →
  ∀ acc l, obj_get k acc = Some (Str m l) →
  obj_get k (foldl merge_entry acc entries) = Some (Str m (l ++ given k entries)).
Proof.
  intros Hk. induction entries as [|[k' v] entries IH]; intros acc l Hacc.
  - by rewrite app_nil_r.
  - simpl. unfold given. rewrite filter_cons. simpl.
    destruct (decide (k' = k)) as [->|Hne]; csimpl.
    + rewrite (IH _ (l ++ [v])); [by rewrite <- app_assoc|].
      unfold merge_entry, get, assign. rewrite Hacc. simpl.
      rewrite decide_False, obj_get_set, decide_True by done. done.
    + apply IH. rewrite merge_entry_other; [done|]. by intros ->.
Qed.

Lemma foldl_merge_member (k : string) (m : member)
    (entries : list (string * number)) :
  inherited k = Some m → k ≠ "__proto__" →
  ∀ acc, obj_get k acc = None →
  obj_get k (foldl merge_entry acc entries)
  = match given k entries with
    | [] => None
    | vs => Some (Str m vs)
    end.
Proof.
  intros Hm Hk. induction entries as [|[k' v] entries IH]; intros acc Hacc.
  - done.
  - simpl. unfold given. rewrite filter_cons. simpl.
    destruct (decide (k' = k)) as [->|Hne]; csimpl.
    + rewrite (foldl_merge_text k m entries Hk _ [v]); [done|].
      unfold merge_entry, get, assign. rewrite Hacc, Hm. simpl.
      rewrite decide_False, obj_get_set, decide_True by done. done.
    + apply IH. rewrite merge_entry_other; [done|]. by intros ->.
Qed.

Lemma foldl_merge_proto (entries : list (string * number)) : ∀ acc,
  obj_get "__proto__" acc = None →
  obj_get "__proto__" (foldl merge_entry acc entries) = None.
Proof.
  induction entries as [|[k v] entries IH]; intros acc Hacc; [done|].
  simpl. apply IH. destruct (decide (k = "__proto__")) as [->|Hne].
  - unfold merge_entry, assign. simpl. by destruct (truthy _).
  - rewrite merge_entry_other; [done|]. by intros <-.
Qed.

(** Under a key that names a member of [Object.prototype] the merged object
    never holds a sum.  Under [__proto__] it holds nothing.  Under any other
    such key it holds a string: the text of the member, followed by the
    numerals of the values that the inputs give for the key, in their
    order. *)
Theorem mergeObjects_inherited_text (objects : list (list (string * number)))
    (k : string) (m : member) :
  inherited k = Some m →
  obj_get "__proto__" (mergeObjects objects) = None ∧
  (k ≠ "__proto__" →
   obj_get k (mergeObjects objects)
   = match given k (concat objects) with
     | [] => None
     | vs => Some (Str m vs)
     end).
Proof.
  intros Hm. rewrite mergeObjects_concat. split.
  - by apply foldl_merge_proto.
  - intros Hk. by apply foldl_merge_member.
Qed.

Lemma mergeObjects_inherited_text_witness :
  obj_get "toString"
    (mergeObjects [[("toString", Finite 1); ("a", Finite 2)];
                   [("b", Finite 3); ("toString", Finite 0)]])
  = Some (Str ToString [Finite 1; Finite 0]).
Proof.
  exact (proj2 (mergeObjects_inherited_text
                  [[("toString", Finite 1); ("a", Finite 2)];
                   [("b", Finite 3); ("toString", Finite 0)]]
                  "toString" ToString eq_refl) ltac:(done)).
Defined.

Lemma mergeObjects_in_steps_witness :
  mergeObjects [[("a", Finite 1); ("b", Finite 5)];
                [("c", Finite 1); ("a", Finite 2)]]
  = mergeObjects ([[("a", Finite 1); ("b", Finite 2)]; [("b", Finite 3)]]
                  ++ [[("c", Finite 1); ("a", Finite 2)]]).
Proof.
  apply (mergeObjects_in_steps
           [[("a", Finite 1); ("b", Finite 2)]; [("b", Finite 3)]]).
  reflexivity.
Defined.

End merge_more.

(** ** Grouping: nothing lost, nothing twice *)

Section grouping_more.
Import Objects Grouping.
Context {E V : Type}.





End grouping_more.

(** ** Sorting cities: the comparison function *)

Section cities_more.
Import Cities.
Local Open Scope Z_scope.

Lemma greater_one_way (x y : option ascii) :
  greater x y = true → greater y x = false.
Proof.
  destruct x as [a|], y as [b|]; try done. simpl.
  intros Hlt%Nat.ltb_lt. apply Nat.ltb_ge. lia.
Qed.

(** The comparison function never answers [0].  It answers [-1] for a place
    against itself, and [-1] in both directions for two places with the same
    first characters; it answers [1] in one direction at most. *)
Theorem comparator_never_equal (a b : place) :
  comparator a b ≠ 0 ∧
  comparator a a = -1 ∧
  (comparator a b = 1 → comparator b a = -1) ∧
  (first_char (country a) = first_char (country b) →
   first_char (city a) = first_char (city b) →
   comparator a b = -1 ∧ comparator b a = -1).
Proof.
  assert (Hirr : ∀ x, greater x x = false).
  { intros [c|]; [|done]. simpl. apply Nat.ltb_irrefl. }
  unfold comparator, same. split; [|split; [|split]].
  - repeat case_bool_decide; repeat destruct (greater _ _); done.
  - rewrite bool_decide_eq_true_2 by done. by rewrite Hirr.
  - case_bool_decide as Hc.
    + rewrite bool_decide_eq_true_2 by done.
      destruct (greater (first_char (city a)) _) eqn:Hg; [|done].
      by rewrite (greater_one_way _ _ Hg).
    + rewrite bool_decide_eq_false_2 by (intros E; by apply Hc).
      destruct (greater (first_char (country a)) _) eqn:Hg; [|done].
      by rewrite (greater_one_way _ _ Hg).
  - intros Hcountry Hcity.
    rewrite Hcountry, Hcity, bool_decide_eq_true_2 by done.
    by rewrite Hirr.
Qed.

Lemma comparator_never_equal_witness :
  comparator (Place "Belarus" "Minsk") (Place "Brazil" "Manaus") = -1 ∧
  comparator (Place "Brazil" "Manaus") (Place "Belarus" "Minsk") = -1.
Proof.
  exact (proj2 (proj2 (proj2 (comparator_never_equal
           (Place "Belarus" "Minsk") (Place "Brazil" "Manaus"))))
           eq_refl eq_refl).
Defined.

End cities_more.
